(** * Scene timeline and subtitle segmentation of the AI podcast director

    A shallow embedding of the pure parts of the video composition
    ([MyVideoComposition], [SceneComponent], [splitDialogueIntoChunks]) and of
    [getDurationInFrames] from the application shell, with the properties the
    specification states about them.

    Conventions of the model:
    - a JavaScript string is the list of its UTF-16 code units, so [length]
      is the [.length] of the source;
    - a JavaScript number that holds a frame count is an integer ([Z]); a
      number that may be fractional (seconds, subtitle frames) is a
      rational ([Q]);
    - where the source takes a whole number out of a fractional computation
      with [Math.ceil] (the frames of a scene, the seconds of the script,
      the samples of the exported track), the products, sums and quotients
      under it are rounded to the nearest double as the source computes
      them ([Double]), and so are the length of a generated audio and the
      0.6 s added to it, which end up under such a ceiling;
    - the other fractional computations are taken exact: the subtitle
      frames and the start of a clip in seconds, of which no whole number
      is taken and about which the statements are on order, sign and
      contiguity, and the scaling of a sample, a product of a 32-bit
      float and a 16-bit constant, which is exact in doubles. *)

From Stdlib Require Import ZArith QArith Qround Qminmax Qpower Qabs List Bool
  Lia Lqa.
Import ListNotations.

Local Open Scope Z_scope.

(** ** JavaScript strings *)

Module JS.

(** A UTF-16 code unit. *)
Definition char := N.

Definition jsstring := list char.

(** [s.length] *)
Definition len (s : jsstring) : Z := Z.of_nat (length s).

(** Truthiness of an optional string property: [undefined] and the empty
    string are falsy. *)
Definition truthy (o : option jsstring) : bool :=
  match o with
  | None => false
  | Some [] => false
  | Some (_ :: _) => true
  end.

(** Truthiness of a string. *)
Definition nonempty (s : jsstring) : bool :=
  match s with [] => false | _ :: _ => true end.

(** The code units matched by [\s] and removed by [trim]: WhiteSpace and
    LineTerminator of ECMAScript. *)
Definition is_space (c : char) : bool :=
  ((9 <=? c) && (c <=? 13) || (c =? 32) || (c =? 160) || (c =? 5760)
   || (8192 <=? c) && (c <=? 8202) || (c =? 8232) || (c =? 8233)
   || (c =? 8239) || (c =? 8287) || (c =? 12288) || (c =? 65279))%N.

Fixpoint takeWhile (f : char -> bool) (s : jsstring) : jsstring :=
  match s with
  | [] => []
  | c :: rest => if f c then c :: takeWhile f rest else []
  end.

Fixpoint dropWhile (f : char -> bool) (s : jsstring) : jsstring :=
  match s with
  | [] => []
  | c :: rest => if f c then dropWhile f rest else s
  end.

Definition trimStart (s : jsstring) : jsstring := dropWhile is_space s.

Definition trimEnd (s : jsstring) : jsstring :=
  rev (dropWhile is_space (rev s)).

(** [s.trim()] *)
Definition trim (s : jsstring) : jsstring := trimEnd (trimStart s).

(** The rest of [s] after the literal [pre], when [s] starts with it. *)
Fixpoint strip_prefix (pre s : jsstring) : option jsstring :=
  match pre, s with
  | [], _ => Some s
  | _ :: _, [] => None
  | a :: pre', b :: s' => if (a =? b)%N then strip_prefix pre' s' else None
  end.

(** *** [s.split(/(?<=[...])\s*/)]

    The splitter is a regular expression of the shape [(?<=[set])\s*]: a
    lookbehind on one code unit of a class, then a greedy run of white
    space.  [lookbehind_ws inSet prev rest] is the sticky match of that
    expression at the position whose previous code unit is [prev] and
    whose remaining input is [rest]: the number of code units consumed,
    or [None] when the lookbehind fails. *)
Definition lookbehind_ws (inSet : char -> bool) (prev : option char)
           (rest : jsstring) : option nat :=
  match prev with
  | Some c => if inSet c then Some (length (takeWhile is_space rest)) else None
  | None => None
  end.

(** The code unit before position [q + n], given the one before [q]. *)
Definition prev_after (prev : option char) (consumed : jsstring)
  : option char :=
  last (map Some consumed) prev.

(** The loop of RegExp.prototype[Symbol.split] over the indices [p <= q]:
    [cur] is S[p..q), [rest] is S[q..size) and [prev] is the code unit
    S[q-1].  A failed match, or an empty match at [p], moves [q] on by one
    code unit; any other match, ending at [e], closes the piece S[p..q)
    and restarts at [p = q = e].  The rest S[p..size) is the last piece.
    [None] when the iteration budget runs out. *)
Fixpoint split_loop (fuel : nat) (inSet : char -> bool)
         (prev : option char) (cur rest : jsstring)
  : option (list jsstring) :=
  match fuel with
  | O => None
  | S fuel' =>
      match rest with
      | [] => Some [cur]
      | c :: rest' =>
          match lookbehind_ws inSet prev rest with
          | None => split_loop fuel' inSet (Some c) (cur ++ [c]) rest'
          | Some n =>
              if (length cur + n =? 0)%nat (* e = p *)
              then split_loop fuel' inSet (Some c) (cur ++ [c]) rest'
              else
                match split_loop fuel' inSet
                        (prev_after prev (firstn n rest)) [] (skipn n rest)
                with
                | None => None
                | Some pieces => Some (cur :: pieces)
                end
          end
      end
  end.

Definition split_fuel (s : jsstring) : nat := (2 * length s + 2)%nat.

Definition split (inSet : char -> bool) (s : jsstring) : list jsstring :=
  match s with
  | [] =>
      match lookbehind_ws inSet None [] with
      | Some _ => []
      | None => [s]
      end
  | _ :: _ =>
      match split_loop (split_fuel s) inSet None [] s with
      | Some pieces => pieces
      | None => []
      end
  end.

End JS.

Import JS.

(** ** JavaScript numbers *)

Module Double.

(** A finite double is a rational [m * 2^e] with [|m| < 2^53] and
    [-1074 <= e].  The arithmetic of the source on fractional numbers is
    the exact operation followed by the rounding to the nearest such
    number, the one with the even [m] on a tie.  [NaN] and the overflow
    to [Infinity] (results of [2^1024] and more) are outside of this
    model.  That [round] gives a double, and one that no other double
    beats, is [round_representable] and [round_nearest] below. *)

(** [x] is a finite double. *)
Definition representable (x : Q) : Prop :=
  exists m e : Z,
    (x == inject_Z m * 2 ^ e)%Q /\ Z.abs m < 2 ^ 53 /\ -1074 <= e.

(** [floor (log2 x)] for a positive [x]. *)
Definition ilog2 (x : Q) : Z :=
  let k := Z.log2 (Qnum x) - Z.log2 (QDen x) in
  if Qle_bool (2 ^ k) x then k else k - 1.

(** The integer nearest to [t], the even one on a tie. *)
Definition nearest (t : Q) : Z :=
  let q := Qfloor t in
  match (2 * (t - inject_Z q) ?= 1)%Q with
  | Lt => q
  | Gt => q + 1
  | Eq => if Z.even q then q else q + 1
  end.

(** The exponent [e] of the double nearest to a positive [x]: the one that
    leaves 53 bits to [m], and not below -1074 (subnormal numbers). *)
Definition exponent (x : Q) : Z := Z.max (ilog2 x - 52) (-1074).

(** The double nearest to a positive [x]. *)
Definition roundPos (x : Q) : Q :=
  let e := exponent x in
  (inject_Z (nearest (x / 2 ^ e)) * 2 ^ e)%Q.

(** The double nearest to [x]. *)
Definition round (x : Q) : Q :=
  let x := Qred x in
  match Qnum x with
  | 0 => 0%Q
  | Zpos _ => roundPos x
  | Zneg _ => (- roundPos (- x))%Q
  end.

(** [x * y], [x + y] and [x / y] on doubles.  An operand that is not a
    double stands for the double nearest to it, as a literal of the source
    does; a double is its own nearest double.  The source divides by the
    constants [FPS] and [24000 * 2 * 1] only; a division by zero is
    outside of this model. *)
Definition mul (x y : Q) : Q := round (round x * round y).

Definition add (x y : Q) : Q := round (round x + round y).

Definition div (x y : Q) : Q := round (round x / round y).

End Double.

(** ** types.ts *)

Record DataOverlay := {
  title : jsstring;
  subhead : option jsstring;
  headers : list jsstring;
  row : list jsstring
}.

Record Scene := {
  dialogue : jsstring;
  visualDescription : jsstring;
  keyword : jsstring;
  durationInSeconds : Q;
  backgroundColor : jsstring;
  audioUrl : option jsstring;
  phoneticDialogue : option jsstring;
  dataOverlay : DataOverlay
}.

Record ReferenceMaterial := {
  refTitle : jsstring;
  refSubhead : jsstring;
  refHeaders : list jsstring;
  rows : list (list jsstring)
}.

Record VideoScript := {
  topic : jsstring;
  scenes : list Scene;
  totalDurationInSeconds : Q;
  referenceMaterial : ReferenceMaterial
}.

Definition FPS : Z := 30.
Definition TRANSITION_DURATION_IN_FRAMES : Z := 15.

(** ** The timeline of [MyVideoComposition] *)

Module Timeline.

Record Placement := {
  startFrame : Z;
  durationInFrames : Z
}.

(** [Math.ceil(scene.durationInSeconds * fps)]: the ceiling of the
    product as a double. *)
Definition sceneFrames (fps : Z) (scene : Scene) : Z :=
  Qceiling (Double.mul (durationInSeconds scene) (inject_Z fps)).

(** The body of [scenes.map] in the [timeline] memo; [currentFrame] is the
    mutable cursor the callback closes over.  The frame rate and the
    overlap are the two constants of types.ts, kept as arguments here. *)
Fixpoint timeline_from (fps overlap : Z) (currentFrame : Z)
         (scenes : list Scene) : list Placement :=
  match scenes with
  | [] => []
  | scene :: rest =>
      let durationInFrames := sceneFrames fps scene in
      let startFrame := currentFrame in
      let nextFrame := currentFrame + Z.max 0 (durationInFrames - overlap) in
      {| startFrame := startFrame; durationInFrames := durationInFrames |}
        :: timeline_from fps overlap nextFrame rest
  end.

Definition buildTimeline (fps overlap : Z) (scenes : list Scene) :=
  timeline_from fps overlap 0 scenes.

(** [const timeline = useMemo(...)] *)
Definition timeline (scenes : list Scene) : list Placement :=
  buildTimeline FPS TRANSITION_DURATION_IN_FRAMES scenes.

(** What a [<Sequence>] wraps. *)
Inductive Child :=
| SceneComponent (scene : Scene) (index : nat)
| Audio (src : jsstring).

Inductive Track := Visual | Sound.

Record Sequence := {
  key : Track * nat;
  from : Z;
  seqDurationInFrames : Z;
  child : Child
}.

(** [scenes.map((scene, index) => f scene index)] where the callback may
    throw ([None]). *)
Fixpoint mapi_from {A B : Type} (f : A -> nat -> option B) (index : nat)
         (l : list A) : option (list B) :=
  match l with
  | [] => Some []
  | x :: rest =>
      match f x index with
      | None => None
      | Some y =>
          match mapi_from f (S index) rest with
          | None => None
          | Some ys => Some (y :: ys)
          end
      end
  end.

(** The visual track.  Destructuring [timeline[index]] throws when the
    index is out of range. *)
Definition visualTrack (scenes : list Scene) : option (list Sequence) :=
  let timeline := timeline scenes in
  mapi_from
    (fun scene index =>
       match nth_error timeline index with
       | None => None
       | Some p =>
           Some {| key := (Visual, index);
                   from := startFrame p;
                   seqDurationInFrames := durationInFrames p;
                   child := SceneComponent scene index |}
       end)
    0%nat scenes.

(** The audio track: [null] for a scene whose [audioUrl] is falsy. *)
Definition audioTrack (scenes : list Scene)
  : option (list (option Sequence)) :=
  let timeline := timeline scenes in
  mapi_from
    (fun scene index =>
       match nth_error timeline index with
       | None => None
       | Some p =>
           match audioUrl scene with
           | Some url =>
               if truthy (Some url)
               then Some (Some {| key := (Sound, index);
                                  from := startFrame p;
                                  seqDurationInFrames := durationInFrames p;
                                  child := Audio url |})
               else Some None
           | None => Some None
           end
       end)
    0%nat scenes.

(** [getDurationInFrames] of App.tsx; [videoData] is the nullable state. *)
Definition getDurationInFrames (videoData : option VideoScript) : Z :=
  match videoData with
  | None => 0
  | Some videoData =>
      let totalSceneFrames :=
        fold_left (fun acc scene => acc + sceneFrames FPS scene)
                  (scenes videoData) 0 in
      let overlapFrames :=
        Z.max 0 (Z.of_nat (length (scenes videoData)) - 1)
        * TRANSITION_DURATION_IN_FRAMES in
      totalSceneFrames - overlapFrames
  end.

End Timeline.

(** ** The subtitles of [SceneComponent] *)

Module Subtitle.

(** The two speaker names of the prefix pattern. *)
Definition speakerJenba : jsstring := [12376; 12359; 12435; 12400]%N.
Definition speakerAiba : jsstring := [12354; 12356; 12400]%N.

(** [[:\uFF1A]] *)
Definition is_colon (c : char) : bool := ((c =? 58) || (c =? 65306))%N.

(** The class of the sentence splitter: ideographic full stop, full-width
    and ASCII exclamation and question marks. *)
Definition is_sentence_end (c : char) : bool :=
  ((c =? 12290) || (c =? 65281) || (c =? 65311) || (c =? 33) || (c =? 63))%N.

(** The class of the clause splitter: ideographic and ASCII comma. *)
Definition is_comma (c : char) : bool := ((c =? 12289) || (c =? 44))%N.

(** The match of one alternative of the prefix pattern at the start of
    [text]: the input after the speaker name and the colon. *)
Definition match_speaker (name text : jsstring) : option jsstring :=
  match strip_prefix name text with
  | Some (c :: rest) => if is_colon c then Some rest else None
  | _ => None
  end.

(** [text.replace(/^(name1|name2)[colon]/, '')] *)
Definition removeSpeakerPrefix (text : jsstring) : jsstring :=
  match match_speaker speakerJenba text with
  | Some rest => rest
  | None =>
      match match_speaker speakerAiba text with
      | Some rest => rest
      | None => text
      end
  end.

(** The callback of [subParts.forEach]; the state is the output array and
    [currentChunk]. *)
Definition addPart (st : list jsstring * jsstring) (part : jsstring)
  : list jsstring * jsstring :=
  let '(chunks, currentChunk) := st in
  if 30 <? len (currentChunk ++ part)
  then ((if nonempty currentChunk then chunks ++ [currentChunk] else chunks),
        part)
  else (chunks, currentChunk ++ part).

(** The callback of [sentences.forEach]. *)
Definition addSentence (chunks : list jsstring) (sentence : jsstring)
  : list jsstring :=
  if len sentence <? 25
  then chunks ++ [sentence]
  else
    let subParts := split is_comma sentence in
    let '(chunks, currentChunk) :=
      fold_left addPart subParts (chunks, ([] : jsstring)) in
    if nonempty currentChunk then chunks ++ [currentChunk] else chunks.

Definition splitDialogueIntoChunks (text : jsstring) : list jsstring :=
  let cleanText := trim (removeSpeakerPrefix text) in
  let sentences :=
    filter (fun s => 0 <? len s) (split is_sentence_end cleanText) in
  fold_left addSentence sentences [].

Record Chunk := {
  text : jsstring;
  startFrame : Q;
  endFrame : Q
}.

(** [Math.max(text.length, 5)] *)
Definition weight (text : jsstring) : Z := Z.max (len text) 5.

(** [(weight / Math.max(totalChars, 1)) * totalDurationFrames] *)
Definition duration (totalChars : Z) (totalDurationFrames : Q)
           (text : jsstring) : Q :=
  (inject_Z (weight text) / inject_Z (Z.max totalChars 1))
  * totalDurationFrames.

(** The body of [textChunks.map]; [currentStart] is the mutable cursor. *)
Fixpoint layout (totalChars : Z) (totalDurationFrames : Q)
         (currentStart : Q) (textChunks : list jsstring) : list Chunk :=
  match textChunks with
  | [] => []
  | text :: rest =>
      let duration := duration totalChars totalDurationFrames text in
      {| text := text;
         startFrame := currentStart;
         endFrame := currentStart + duration |}
        :: layout totalChars totalDurationFrames (currentStart + duration) rest
  end.

(** [textChunks.join('').length] *)
Definition totalChars (textChunks : list jsstring) : Z :=
  len (concat textChunks).

(** [(scene.durationInSeconds * fps) - 15] *)
Definition totalDurationFrames (durationInSeconds : Q) (fps : Z) : Q :=
  durationInSeconds * inject_Z fps - 15.

(** The [chunks] memo. *)
Definition chunks (dialogue : jsstring) (durationInSeconds : Q) (fps : Z)
  : list Chunk :=
  let textChunks := splitDialogueIntoChunks dialogue in
  layout (totalChars textChunks)
         (totalDurationFrames durationInSeconds fps) 0 textChunks.

End Subtitle.

(** ** Vocabulary of the statements *)

Module Vocab.

Definition emptyOverlay : DataOverlay :=
  {| title := []; subhead := None; headers := []; row := [] |}.

(** A scene of the given length with every other field empty. *)
Definition sceneOfDuration (d : Q) : Scene :=
  {| dialogue := []; visualDescription := []; keyword := [];
     durationInSeconds := d; backgroundColor := []; audioUrl := None;
     phoneticDialogue := None; dataOverlay := emptyOverlay |}.

(** [{...scene, durationInSeconds: d}] *)
Definition withDuration (scene : Scene) (d : Q) : Scene :=
  {| dialogue := dialogue scene;
     visualDescription := visualDescription scene;
     keyword := keyword scene;
     durationInSeconds := d;
     backgroundColor := backgroundColor scene;
     audioUrl := audioUrl scene;
     phoneticDialogue := phoneticDialogue scene;
     dataOverlay := dataOverlay scene |}.

(** [{...scene, audioUrl: undefined}] *)
Definition withoutAudio (scene : Scene) : Scene :=
  {| dialogue := dialogue scene;
     visualDescription := visualDescription scene;
     keyword := keyword scene;
     durationInSeconds := durationInSeconds scene;
     backgroundColor := backgroundColor scene;
     audioUrl := None;
     phoneticDialogue := phoneticDialogue scene;
     dataOverlay := dataOverlay scene |}.

Definition emptyReference : ReferenceMaterial :=
  {| refTitle := []; refSubhead := []; refHeaders := []; rows := [] |}.

(** A script that holds the given scenes. *)
Definition scriptOf (l : list Scene) : VideoScript :=
  {| topic := []; scenes := l; totalDurationInSeconds := 0;
     referenceMaterial := emptyReference |}.

(** The sum of the scene lengths in frames. *)
Definition sumFrames (fps : Z) (l : list Scene) : Z :=
  fold_right (fun scene acc => Timeline.sceneFrames fps scene + acc) 0 l.

(** Two scene lists of one length whose scenes have equal lengths in
    seconds, index by index. *)
Definition sameDurations (l1 l2 : list Scene) : Prop :=
  Forall2 (fun a b => durationInSeconds a == durationInSeconds b) l1 l2.

(** [erase P b s r]: [r] is [s] with some white space left out.  A white
    space code unit may be left out only in a run of white space that
    directly follows a code unit of the class [P] (or that starts [s],
    when [b] holds); every other code unit is kept, once and in place. *)
Inductive erase (P : char -> bool) : bool -> jsstring -> jsstring -> Prop :=
| erase_nil b : erase P b [] []
| erase_keep b c s r : erase P (P c) s r -> erase P b (c :: s) (c :: r)
| erase_drop c s r :
    is_space c = true -> erase P true s r -> erase P true (c :: s) r.

(** Whether the lookbehind of a splitter of class [P] succeeds after
    [prev]. *)
Definition after (P : char -> bool) (prev : option char) : bool :=
  match prev with
  | Some c => P c
  | None => false
  end.

(** Sentence ends and commas: the code units a split may follow. *)
Definition is_boundary (c : char) : bool :=
  Subtitle.is_sentence_end c || Subtitle.is_comma c.

Definition all_space (s : jsstring) : Prop :=
  Forall (fun c => is_space c = true) s.

Definition all_nonempty (l : list jsstring) : Prop :=
  Forall (fun t => t <> []) l.

(** [text] starts with one of the two speaker names and a colon, and
    [rest] is what follows them. *)
Definition tagged (text rest : jsstring) : Prop :=
  exists name colon,
    (name = Subtitle.speakerJenba \/ name = Subtitle.speakerAiba)
    /\ Subtitle.is_colon colon = true
    /\ text = name ++ colon :: rest.

(** [stripped] is [text] without its speaker prefix: what follows the name
    and the colon where [text] starts with them, [text] itself where it
    does not. *)
Definition speakerStripped (text stripped : jsstring) : Prop :=
  tagged text stripped
  \/ ((forall rest, ~ tagged text rest) /\ stripped = text).

(** A dialogue that is empty, or is one of the two speaker names, a colon
    and white space. *)
Definition tagOnly (dialogue : jsstring) : Prop :=
  dialogue = []
  \/ exists name colon ws,
      (name = Subtitle.speakerJenba \/ name = Subtitle.speakerAiba)
      /\ Subtitle.is_colon colon = true
      /\ all_space ws
      /\ dialogue = name ++ colon :: ws.

(** The sum of the lengths of the texts. *)
Definition sumLen (l : list jsstring) : Z :=
  fold_right (fun t acc => len t + acc) 0 l.

(** The sum of the weights of the texts. *)
Definition sumWeight (l : list jsstring) : Z :=
  fold_right (fun t acc => Subtitle.weight t + acc) 0 l.

(** A dialogue of three code units, the two kana of "hai" and an
    ideographic full stop: one chunk, shorter than the minimum weight. *)
Definition hai : jsstring := [12399; 12356; 12290]%N.

End Vocab.

(** ** The active subtitle of [SceneComponent] *)

Module Playback.

(** [frame >= c.startFrame && frame < c.endFrame] *)
Definition isActive (frame : Q) (c : Subtitle.Chunk) : bool :=
  Qle_bool (Subtitle.startFrame c) frame
  && negb (Qle_bool (Subtitle.endFrame c) frame).

(** [chunks.find(c => ...)] *)
Definition activeChunk (chunks : list Subtitle.Chunk) (frame : Q)
  : option Subtitle.Chunk :=
  find (isActive frame) chunks.

End Playback.

(** ** The audio export of App.tsx *)

Module AudioExport.

(** [videoData?.scenes.every(s => !!s.audioUrl) ?? false] *)
Definition hasAudio (videoData : option VideoScript) : bool :=
  match videoData with
  | None => false
  | Some videoData => forallb (fun s => truthy (audioUrl s)) (scenes videoData)
  end.

(** An entry of [buffers]: the audio that was fetched, by its URL, and the
    second it starts at. *)
Record Clip := {
  src : jsstring;
  start : Q
}.

(** The [for (const scene of videoData.scenes)] loop of
    [downloadAudioTrack], on the path where every fetch and decode
    succeeds; the state is [buffers] and [currentFrame]. *)
Fixpoint exportLoop (buffers : list Clip) (currentFrame : Z)
         (scenes : list Scene) : list Clip * Z :=
  match scenes with
  | [] => (buffers, currentFrame)
  | scene :: rest =>
      let buffers :=
        match audioUrl scene with
        | Some url =>
            if truthy (Some url)
            then buffers ++ [{| src := url;
                                start := inject_Z currentFrame / inject_Z FPS |}]
            else buffers
        | None => buffers
        end in
      let durationInFrames := Timeline.sceneFrames FPS scene in
      let nextFrame :=
        currentFrame
        + Z.max 0 (durationInFrames - TRANSITION_DURATION_IN_FRAMES) in
      exportLoop buffers nextFrame rest
  end.

(** What [downloadAudioTrack] hands to the offline renderer: the clips,
    and the length [samples] of the [OfflineAudioContext]. *)
Record Mix := {
  clips : list Clip;
  totalDuration : Q;
  samples : Z
}.

(** [downloadAudioTrack] up to the rendering: [None] when the guard
    [!videoData || !hasAudio] returns early. *)
Definition downloadAudioTrack (videoData : option VideoScript) : option Mix :=
  match videoData with
  | None => None
  | Some v =>
      if negb (hasAudio (Some v)) then None
      else
        let '(buffers, currentFrame) := exportLoop [] 0 (scenes v) in
        let totalDuration :=
          Double.div (inject_Z currentFrame) (inject_Z FPS) in
        Some {| clips := buffers;
                totalDuration := totalDuration;
                samples := Qceiling (Double.mul totalDuration 44100) |}
  end.

(** The scanner of [s.replace(/\s+/g, '_')]: [inRun] holds inside a run of
    white space that has already given its underscore. *)
Fixpoint underscores (inRun : bool) (s : jsstring) : jsstring :=
  match s with
  | [] => []
  | c :: rest =>
      if is_space c
      then if inRun then underscores true rest
           else 95%N :: underscores true rest
      else c :: underscores false rest
  end.

(** [topic.replace(/\s+/g, '_')] *)
Definition fileStem (topic : jsstring) : jsstring := underscores false topic.

End AudioExport.

(** ** services/geminiService *)

Module Speech.

Import Subtitle.

(** [a || b || c] on an optional and two plain strings. *)
Definition firstTruthy (a : option jsstring) (b c : jsstring) : jsstring :=
  match a with
  | Some (x :: xs) => x :: xs
  | _ => if nonempty b then b else c
  end.

(** The first group of the match of [/^(name1|name2)[colon]/] on [text]. *)
Definition speakerMatch (text : jsstring) : option jsstring :=
  match match_speaker speakerJenba text with
  | Some _ => Some speakerJenba
  | None =>
      match match_speaker speakerAiba text with
      | Some _ => Some speakerAiba
      | None => None
      end
  end.

(** [speakerRegex.test(text)] *)
Definition hasSpeaker (text : jsstring) : bool :=
  match speakerMatch text with Some _ => true | None => false end.

(** The class [[\s\*\-\d\.]]. *)
Definition is_bullet (c : char) : bool :=
  (is_space c || (c =? 42) || (c =? 45) || (48 <=? c) && (c <=? 57)
   || (c =? 46))%N.

(** The match of [/^[\s\*\-\d\.]+(?=(name1|name2)[colon])/] on [s]: the
    input after the run, the longest run tried first and shorter ones on
    backtracking. *)
Fixpoint bulletRest (s : jsstring) : option jsstring :=
  match s with
  | [] => None
  | c :: rest =>
      if is_bullet c
      then match bulletRest rest with
           | Some r => Some r
           | None => if hasSpeaker rest then Some rest else None
           end
      else None
  end.

(** [text.replace(/^[\s\*\-\d\.]+(?=(name1|name2)[colon])/, '')] *)
Definition stripBullets (text : jsstring) : jsstring :=
  match bulletRest text with
  | Some rest => rest
  | None => text
  end.

(** The template [`${speaker}: ${text}`]. *)
Definition prefixed (speaker text : jsstring) : jsstring :=
  speaker ++ [58; 32]%N ++ text.

(** The default text of [addAudioToScript]: the first speaker name, a
    colon, a space and three full stops. *)
Definition defaultText : jsstring := prefixed speakerJenba [46; 46; 46]%N.

(** [textToSpeak] of [addAudioToScript], as it is handed to
    [generateSpeech]. *)
Definition textToSpeak (scene : Scene) : jsstring :=
  let textToSpeak :=
    firstTruthy (phoneticDialogue scene) (dialogue scene) defaultText in
  let textToSpeak := stripBullets textToSpeak in
  if negb (hasSpeaker textToSpeak)
  then match speakerMatch (dialogue scene) with
       | Some speaker => prefixed speaker textToSpeak
       | None => prefixed speakerJenba textToSpeak
       end
  else textToSpeak.

(** [textToSpeak] of [handleRegenerateAudio] in App.tsx. *)
Definition regenerateText (scene : Scene) : jsstring :=
  let textToSpeak :=
    trim (firstTruthy (phoneticDialogue scene) (dialogue scene) []) in
  if negb (hasSpeaker textToSpeak)
  then
    let speaker :=
      match speakerMatch (dialogue scene) with
      | Some speaker => speaker
      | None => speakerJenba
      end in
    prefixed speaker textToSpeak
  else textToSpeak.


(** What [generateSpeech] resolves to, when it is not [null]. *)
Record AudioResult := {
  resultUrl : jsstring;
  resultDuration : Q
}.

(** The body of the [for] loop of [addAudioToScript] for one scene, given
    what [generateSpeech] resolved to. *)
Definition withAudio (scene : Scene) (audioResult : option AudioResult)
  : Scene :=
  match audioResult with
  | Some audioResult =>
      let audioDuration := Double.add (resultDuration audioResult) (6 # 10) in
      let finalDuration := Qmax (durationInSeconds scene) audioDuration in
      {| dialogue := dialogue scene;
         visualDescription := visualDescription scene;
         keyword := keyword scene;
         durationInSeconds := finalDuration;
         backgroundColor := backgroundColor scene;
         audioUrl := Some (resultUrl audioResult);
         phoneticDialogue := Some (textToSpeak scene);
         dataOverlay := dataOverlay scene |}
  | None => scene
  end.

(** The [for] loop of [addAudioToScript].  [generateSpeech i text] is what
    the [i]-th call of the speech service resolves to; [scenesWithAudio]
    is the array the loop pushes to.  The [onProgress] callback, which
    only reports the count, is left out. *)
Fixpoint audioLoop (generateSpeech : nat -> jsstring -> option AudioResult)
         (i : nat) (scenesWithAudio : list Scene) (rest : list Scene)
  : list Scene :=
  match rest with
  | [] => scenesWithAudio
  | scene :: rest =>
      let audioResult := generateSpeech i (textToSpeak scene) in
      audioLoop generateSpeech (S i)
                (scenesWithAudio ++ [withAudio scene audioResult]) rest
  end.

(** [scenes.reduce((acc, s) => acc + s.durationInSeconds, 0)]: a sum of
    doubles, rounded at every step. *)
Definition sumDurations (l : list Scene) : Q :=
  fold_left (fun acc s => Double.add acc (durationInSeconds s)) l 0%Q.

Definition addAudioToScript
           (generateSpeech : nat -> jsstring -> option AudioResult)
           (currentScript : VideoScript) : VideoScript :=
  let scenesWithAudio := audioLoop generateSpeech 0 [] (scenes currentScript) in
  let totalDuration := sumDurations scenesWithAudio in
  {| topic := topic currentScript;
     scenes := scenesWithAudio;
     totalDurationInSeconds := inject_Z (Qceiling totalDuration);
     referenceMaterial := referenceMaterial currentScript |}.

End Speech.

(** ** The regeneration of one audio in App.tsx *)

Module Regenerate.



End Regenerate.

(** ** The WAV files of App.tsx and of the speech service *)

Module Wav.

(** The bytes of an [ArrayBuffer], each in [0, 256). *)
Definition buffer := list Z.

(** [new ArrayBuffer(n)]: [n] zero bytes. *)
Definition ArrayBuffer (n : Z) : buffer := repeat 0 (Z.to_nat n).

Definition byteLength (view : buffer) : Z := Z.of_nat (length view).

(** The byte at index [i] replaced. *)
Fixpoint store (view : buffer) (i : nat) (b : Z) : buffer :=
  match view, i with
  | [], _ => []
  | _ :: rest, O => b :: rest
  | x :: rest, S i' => x :: store rest i' b
  end.

Fixpoint storeBytes (view : buffer) (i : nat) (bytes : list Z) : buffer :=
  match bytes with
  | [] => view
  | b :: rest => storeBytes (store view i b) (S i) rest
  end.

(** The [k] low bytes of [value], the lowest first. *)
Fixpoint leBytes (k : nat) (value : Z) : list Z :=
  match k with
  | O => []
  | S k' => (value mod 256) :: leBytes k' (value / 256)
  end.

(** The bounds check of the [DataView] setters and of
    [TypedArray.prototype.set]: a [RangeError] outside of it. *)
Definition inRange (view : buffer) (offset width : Z) : bool :=
  (0 <=? offset) && (offset + width <=? byteLength view).

(** The setters store the value modulo 2^8, 2^16 and 2^32, in little
    endian order where they are called with [true]; [None] is the
    [RangeError]. *)
Definition setUint8 (view : buffer) (offset value : Z) : option buffer :=
  if inRange view offset 1
  then Some (storeBytes view (Z.to_nat offset) (leBytes 1 value))
  else None.

Definition setUint16 (view : buffer) (offset value : Z) : option buffer :=
  if inRange view offset 2
  then Some (storeBytes view (Z.to_nat offset) (leBytes 2 value))
  else None.

Definition setUint32 (view : buffer) (offset value : Z) : option buffer :=
  if inRange view offset 4
  then Some (storeBytes view (Z.to_nat offset) (leBytes 4 value))
  else None.

(** The integer part of a number, rounding toward zero. *)
Definition truncate (x : Q) : Z :=
  if Qle_bool 0 x then Qfloor x else Qceiling x.

(** [view.setInt16(offset, value, true)]: the integer part of the value,
    modulo 2^16, in two's complement. *)
Definition setInt16 (view : buffer) (offset : Z) (value : Q)
  : option buffer :=
  setUint16 view offset (truncate value).

(** [wavBytes.set(bytes, offset)] *)
Definition setArray (view : buffer) (offset : Z) (bytes : list Z)
  : option buffer :=
  if inRange view offset (Z.of_nat (length bytes))
  then Some (storeBytes view (Z.to_nat offset) bytes)
  else None.

(** The loop of [writeString], from the index [i] on. *)
Fixpoint writeString_from (view : buffer) (offset i : Z) (string : jsstring)
  : option buffer :=
  match string with
  | [] => Some view
  | c :: rest =>
      match setUint8 view (offset + i) (Z.of_N c) with
      | None => None
      | Some view => writeString_from view offset (i + 1) rest
      end
  end.

Definition writeString (view : buffer) (offset : Z) (string : jsstring)
  : option buffer :=
  writeString_from view offset 0 string.

(** The next write of a sequence, when the writes before it went through. *)
Definition andThen (view : option buffer) (f : buffer -> option buffer)
  : option buffer :=
  match view with
  | Some view => f view
  | None => None
  end.

Notation "v >>= f" := (andThen v f) (at level 50, left associativity).

Definition RIFF : jsstring := [82; 73; 70; 70]%N.
Definition WAVE : jsstring := [87; 65; 86; 69]%N.
Definition fmt_ : jsstring := [102; 109; 116; 32]%N.
Definition data : jsstring := [100; 97; 116; 97]%N.

(** [pcmToWav] up to the blob: the bytes of the buffer.  [binaryString] is
    what [atob] returned. *)
Definition pcmToWav (binaryString : jsstring) (sampleRate : Z)
  : option buffer :=
  let bytes := map (fun c => Z.of_N c mod 256) binaryString in
  let dataLength := Z.of_nat (length bytes) in
  let view := ArrayBuffer (44 + dataLength) in
  writeString view 0 RIFF
  >>= (fun view => setUint32 view 4 (36 + dataLength))
  >>= (fun view => writeString view 8 WAVE)
  >>= (fun view => writeString view 12 fmt_)
  >>= (fun view => setUint32 view 16 16)
  >>= (fun view => setUint16 view 20 1)
  >>= (fun view => setUint16 view 22 1)
  >>= (fun view => setUint32 view 24 sampleRate)
  >>= (fun view => setUint32 view 28 (sampleRate * 2))
  >>= (fun view => setUint16 view 32 2)
  >>= (fun view => setUint16 view 34 16)
  >>= (fun view => writeString view 36 data)
  >>= (fun view => setUint32 view 40 dataLength)
  >>= (fun view => setArray view 44 bytes).

(** [byteLength / (24000 * 2 * 1)] of [generateSpeech], a quotient of
    doubles. *)
Definition speechDuration (binaryString : jsstring) : Q :=
  Double.div (inject_Z (len binaryString)) (inject_Z (24000 * 2 * 1)).

(** What [exportWav] reads of an [AudioBuffer]: its rate and the samples
    of channel 0, whose number is [audioBuffer.length]. *)
Record AudioBuffer := {
  sampleRate : Z;
  channelData : list Q
}.

(** [Math.max(-1, Math.min(1, x))], then the scaling to 16 bits. *)
Definition int16Of (x : Q) : Q :=
  let sample := Qmax (-1) (Qmin 1 x) in
  if negb (Qle_bool 0 sample) then sample * 32768 else sample * 32767.

(** The loop that writes the samples, from [offset] on. *)
Fixpoint writeSamples (view : buffer) (offset : Z) (channelData : list Q)
  : option buffer :=
  match channelData with
  | [] => Some view
  | x :: rest =>
      match setInt16 view offset (int16Of x) with
      | None => None
      | Some view => writeSamples view (offset + 2) rest
      end
  end.

(** [exportWav] up to the blob. *)
Definition exportWav (audioBuffer : AudioBuffer) : option buffer :=
  let numChannels := 1 in
  let sampleRate := sampleRate audioBuffer in
  let format := 1 in
  let bitDepth := 16 in
  let length :=
    Z.of_nat (length (channelData audioBuffer)) * numChannels * (bitDepth / 8) in
  let view := ArrayBuffer (44 + length) in
  writeString view 0 RIFF
  >>= (fun view => setUint32 view 4 (36 + length))
  >>= (fun view => writeString view 8 WAVE)
  >>= (fun view => writeString view 12 fmt_)
  >>= (fun view => setUint32 view 16 16)
  >>= (fun view => setUint16 view 20 format)
  >>= (fun view => setUint16 view 22 numChannels)
  >>= (fun view => setUint32 view 24 sampleRate)
  >>= (fun view => setUint32 view 28 (sampleRate * numChannels * (bitDepth / 8)))
  >>= (fun view => setUint16 view 32 (numChannels * (bitDepth / 8)))
  >>= (fun view => setUint16 view 34 bitDepth)
  >>= (fun view => writeString view 36 data)
  >>= (fun view => setUint32 view 40 length)
  >>= (fun view => writeSamples view 44 (channelData audioBuffer)).

End Wav.

(** ** Vocabulary of the further statements *)

Module Terms.

(** The frames the cursor moves on by over the scenes: the clamped step of
    each of them. *)
Definition sumSteps (l : list Scene) : Z :=
  fold_right
    (fun scene acc =>
       Z.max 0 (Timeline.sceneFrames FPS scene - TRANSITION_DURATION_IN_FRAMES)
       + acc) 0 l.

(** The clip the export loop pushes for one scene at the cursor. *)
Definition clipOf (currentFrame : Z) (scene : Scene) : list AudioExport.Clip :=
  match audioUrl scene with
  | Some url =>
      if truthy (Some url)
      then [{| AudioExport.src := url;
               AudioExport.start := inject_Z currentFrame / inject_Z FPS |}]
      else []
  | None => []
  end.

(** The clips the export loop pushes over the scenes from the cursor on. *)
Fixpoint clipsOf (currentFrame : Z) (l : list Scene) : list AudioExport.Clip :=
  match l with
  | [] => []
  | scene :: rest =>
      clipOf currentFrame scene
      ++ clipsOf (currentFrame
                  + Z.max 0 (Timeline.sceneFrames FPS scene
                             - TRANSITION_DURATION_IN_FRAMES)) rest
  end.

(** The number a little endian run of bytes stands for. *)
Fixpoint leValue (bytes : list Z) : Z :=
  match bytes with
  | [] => 0
  | b :: rest => b + 256 * leValue rest
  end.

(** The signed 16 bit number two little endian bytes stand for. *)
Definition int16Value (bytes : list Z) : Z :=
  let u := leValue bytes in
  if u <? 32768 then u else u - 65536.

(** The 44 bytes of the header of a mono 16 bit PCM file. *)
Definition wavHeader (sampleRate dataLength : Z) : list Z :=
  map Z.of_N Wav.RIFF ++ Wav.leBytes 4 (36 + dataLength)
  ++ map Z.of_N Wav.WAVE
  ++ map Z.of_N Wav.fmt_ ++ Wav.leBytes 4 16
  ++ Wav.leBytes 2 1 ++ Wav.leBytes 2 1
  ++ Wav.leBytes 4 sampleRate ++ Wav.leBytes 4 (sampleRate * 2)
  ++ Wav.leBytes 2 2 ++ Wav.leBytes 2 16
  ++ map Z.of_N Wav.data ++ Wav.leBytes 4 dataLength.

(** The thirteen writes of the header, as both [pcmToWav] and [exportWav]
    make them, on the values they write. *)
Definition headerWrites
           (riffSize format channels rate byteRate blockAlign bits dataSize : Z)
           (view : Wav.buffer) : option Wav.buffer :=
  Wav.andThen (Wav.andThen (Wav.andThen (Wav.andThen (Wav.andThen
  (Wav.andThen (Wav.andThen (Wav.andThen (Wav.andThen (Wav.andThen
  (Wav.andThen (Wav.andThen
    (Wav.writeString view 0 Wav.RIFF)
    (fun view => Wav.setUint32 view 4 riffSize))
    (fun view => Wav.writeString view 8 Wav.WAVE))
    (fun view => Wav.writeString view 12 Wav.fmt_))
    (fun view => Wav.setUint32 view 16 16))
    (fun view => Wav.setUint16 view 20 format))
    (fun view => Wav.setUint16 view 22 channels))
    (fun view => Wav.setUint32 view 24 rate))
    (fun view => Wav.setUint32 view 28 byteRate))
    (fun view => Wav.setUint16 view 32 blockAlign))
    (fun view => Wav.setUint16 view 34 bits))
    (fun view => Wav.writeString view 36 Wav.data))
    (fun view => Wav.setUint32 view 40 dataSize).

(** The bytes [exportWav] writes for one sample. *)
Definition sampleBytes (x : Q) : list Z :=
  Wav.leBytes 2 (Wav.truncate (Wav.int16Of x)).

(** A write that goes through on a buffer goes through on a longer one,
    and leaves the added bytes as they are. *)
Definition framed (f : Wav.buffer -> option Wav.buffer) : Prop :=
  forall h h' t, f h = Some h' -> f (h ++ t) = Some (h' ++ t).

Definition no_space (s : jsstring) : Prop :=
  Forall (fun c => is_space c = false) s.

(** The scenes the audio loop pushes over [l], the speech service being
    at its [i]-th call. *)
Fixpoint withAudioFrom (generateSpeech : nat -> jsstring -> option Speech.AudioResult)
         (i : nat) (l : list Scene) : list Scene :=
  match l with
  | [] => []
  | scene :: rest =>
      Speech.withAudio scene (generateSpeech i (Speech.textToSpeak scene))
      :: withAudioFrom generateSpeech (S i) rest
  end.

(** A speech service that always answers with 4 s of audio at the URL
    "blob". *)
Definition fourSeconds (i : nat) (text : jsstring) : option Speech.AudioResult :=
  Some {| Speech.resultUrl := [98; 108; 111; 98]%N;
          Speech.resultDuration := 4 |}.

(** A scene of the given length whose audio is at the URL "blob". *)
Definition sceneWithAudio (d : Q) : Scene :=
  {| dialogue := []; visualDescription := []; keyword := [];
     durationInSeconds := d; backgroundColor := [];
     audioUrl := Some [98; 108; 111; 98]%N; phoneticDialogue := None;
     dataOverlay := Vocab.emptyOverlay |}.

End Terms.

(** * Properties *)

(** ** Doubles *)

(** The rounding on some numbers of the source.  0.1 and 0.6 are not
    doubles; [2^53 + 1] and [2^53 + 3] are ties and go to the neighbour
    with the even significand; the product of 8.3 and 30 is one unit in the
    last place above 249, where the product of 5 and 30 is 150; the quotient
    of 52800 by 48000, plus 0.6, is the double after 1.7; a quarter of the
    smallest double goes to 0. *)
Lemma round_examples :
  (Double.round (1 # 10) == 3602879701896397 # 36028797018963968)%Q
  /\ (Double.round (6 # 10) == 5404319552844595 # 9007199254740992)%Q
  /\ (Double.round 9007199254740993 == 9007199254740992)%Q
  /\ (Double.round 9007199254740995 == 9007199254740996)%Q
  /\ (Double.round (- (83 # 10)) == - Double.round (83 # 10))%Q
  /\ (Double.mul (83 # 10) 30 == 249 + (1 # 35184372088832))%Q
  /\ (Double.mul 5 30 == 150)%Q
  /\ (Double.add (Double.div 52800 48000) (6 # 10)
      == 1914029841632461 # 1125899906842624)%Q
  /\ (Double.round (1 # Z.to_pos (2 ^ 1076)) == 0)%Q.
Proof.
  repeat split; vm_compute; reflexivity.
Qed.

(** The rounding reads its argument in lowest terms. *)
Lemma round_ext (x y : Q) : x == y -> Double.round x = Double.round y.
Proof.
  intro H. unfold Double.round. now rewrite (Qred_complete _ _ H).
Qed.

Section DoubleFacts.

Import Double.

Local Open Scope Q_scope.

(** *** Powers of two *)

Lemma pow2_pos (k : Z) : 0 < 2 ^ k.
Proof.
  apply Qpower_0_lt. reflexivity.
Qed.

Lemma pow2_le (a b : Z) : (a <= b)%Z -> 2 ^ a <= 2 ^ b.
Proof.
  intro H. apply Qpower_le_compat_l; [exact H|]. discriminate.
Qed.

Lemma pow2_add (a b : Z) : 2 ^ (a + b) == 2 ^ a * 2 ^ b.
Proof.
  apply Qpower_plus. discriminate.
Qed.

Lemma pow2_succ (a : Z) : 2 ^ (a + 1) == 2 * 2 ^ a.
Proof.
  rewrite pow2_add. change (2 ^ 1) with 2. ring.
Qed.

Lemma pow2_Z (k : Z) : (0 <= k)%Z -> inject_Z (2 ^ k) == 2 ^ k.
Proof.
  intro H. rewrite Zpower_Qpower by exact H. reflexivity.
Qed.

(** The powers of two around a positive integer. *)
Lemma log2_bounds (n : Z) :
  (0 < n)%Z -> 2 ^ Z.log2 n <= inject_Z n /\ inject_Z n < 2 * 2 ^ Z.log2 n.
Proof.
  intro Hn. destruct (Z.log2_spec n Hn) as [H1 H2].
  pose proof (Z.log2_nonneg n) as Hl.
  rewrite <- pow2_succ, <- !pow2_Z by lia.
  rewrite <- Zle_Qle, <- Zlt_Qlt. split; [exact H1 | exact H2].
Qed.

(** The quotient of two numbers, each between a power of two and its
    double. *)
Lemma ratio_bounds (A N B D K K1 x : Q) :
  A <= N -> N < 2 * A -> B <= D -> D < 2 * B ->
  A == K * B -> K == 2 * K1 -> N == x * D ->
  0 < K -> 0 < B -> 0 < K1 ->
  K1 <= x /\ x < 2 * K.
Proof.
  intros Ha1 Ha2 Hb1 Hb2 Hab Hk Hxd HK HB HK1. split.
  - apply Qnot_lt_le. intro Hc.
    assert (x * D <= K1 * D) by (apply Qmult_le_compat_r; lra).
    assert (K1 * D <= K1 * (2 * B))
      by (apply (proj2 (Qmult_le_l D (2 * B) K1 ltac:(lra))); lra).
    nra.
  - apply Qnot_le_lt. intro Hc.
    assert (2 * K * D <= x * D) by (apply Qmult_le_compat_r; lra).
    assert (2 * K * B <= 2 * K * D)
      by (apply (proj2 (Qmult_le_l B D (2 * K) ltac:(lra))); lra).
    nra.
Qed.

(** [ilog2 x] is the exponent of the power of two at or below [x]. *)
Lemma ilog2_spec (x : Q) :
  0 < x -> 2 ^ ilog2 x <= x /\ x < 2 * 2 ^ ilog2 x.
Proof.
  intro Hx. unfold ilog2.
  set (a := Z.log2 (Qnum x)). set (b := Z.log2 (QDen x)).
  assert (Hn : (0 < Qnum x)%Z).
  { unfold Qlt in Hx. simpl in Hx. lia. }
  destruct (log2_bounds (Qnum x) Hn) as [Ha1 Ha2].
  destruct (log2_bounds (QDen x) (Pos2Z.is_pos _)) as [Hb1 Hb2].
  fold a in Ha1, Ha2. fold b in Hb1, Hb2.
  assert (Hab : 2 ^ a == 2 ^ (a - b) * 2 ^ b).
  { rewrite <- pow2_add. now replace (a - b + b)%Z with a by lia. }
  assert (Hk : 2 ^ (a - b) == 2 * 2 ^ (a - b - 1)).
  { rewrite <- pow2_succ. now replace (a - b - 1 + 1)%Z with (a - b)%Z by lia. }
  assert (Hxd : inject_Z (Qnum x) == x * inject_Z (QDen x)).
  { destruct x as [n d]. unfold Qeq. simpl.
    now rewrite Pos.mul_1_r, Z.mul_1_r. }
  destruct (ratio_bounds _ _ _ _ _ _ _ Ha1 Ha2 Hb1 Hb2 Hab Hk Hxd
              (pow2_pos _) (pow2_pos _) (pow2_pos _)) as [Hlow Hup].
  cbv zeta.
  destruct (Qle_bool (2 ^ (a - b)) x) eqn:E.
  - apply Qle_bool_iff in E. split; assumption.
  - assert (Hlt : x < 2 ^ (a - b)).
    { apply Qnot_le_lt. intro Hc. apply Qle_bool_iff in Hc. congruence. }
    split; [exact Hlow|]. rewrite <- Hk. exact Hlt.
Qed.

(** [ilog2] grows with its argument. *)
Lemma ilog2_mono (x y : Q) : 0 < x -> x <= y -> (ilog2 x <= ilog2 y)%Z.
Proof.
  intros Hx Hxy.
  destruct (ilog2_spec x Hx) as [H1 _].
  destruct (ilog2_spec y ltac:(lra)) as [_ H2].
  rewrite <- pow2_succ in H2.
  destruct (Z_le_gt_dec (ilog2 x) (ilog2 y)) as [H|H]; [exact H|].
  exfalso. pose proof (pow2_le (ilog2 y + 1) (ilog2 x) ltac:(lia)). lra.
Qed.

(** *** The nearest integer *)

Lemma nearest_cases (t : Q) :
  (nearest t = Qfloor t /\ 2 * (t - inject_Z (Qfloor t)) <= 1)
  \/ (nearest t = (Qfloor t + 1)%Z /\ 1 <= 2 * (t - inject_Z (Qfloor t))).
Proof.
  unfold nearest. cbv zeta.
  destruct (Qcompare_spec (2 * (t - inject_Z (Qfloor t))) 1) as [H|H|H].
  - destruct (Z.even (Qfloor t)); [left|right]; split; try reflexivity;
      rewrite H; apply Qle_refl.
  - left. split; [reflexivity|]. now apply Qlt_le_weak.
  - right. split; [reflexivity|]. now apply Qlt_le_weak.
Qed.

(** The nearest integer is at most one half away. *)
Lemma nearest_error (t : Q) :
  t - (1 # 2) <= inject_Z (nearest t) /\ inject_Z (nearest t) <= t + (1 # 2).
Proof.
  pose proof (Qfloor_le t) as H1. pose proof (Qlt_floor t) as H2.
  rewrite inject_Z_plus in H2. change (inject_Z 1) with 1 in H2.
  destruct (nearest_cases t) as [[-> H]|[-> H]].
  - split; lra.
  - rewrite inject_Z_plus. change (inject_Z 1) with 1. split; lra.
Qed.

Lemma nearest_Z (t : Q) (n : Z) : t == inject_Z n -> nearest t = n.
Proof.
  intro H. unfold nearest. cbv zeta.
  rewrite (Qfloor_comp _ _ H), Qfloor_Z.
  destruct (Qcompare_spec (2 * (t - inject_Z n)) 1) as [E|E|E];
    [exfalso; lra | reflexivity | exfalso; lra].
Qed.

(** The nearest integer grows with its argument. *)
Lemma nearest_mono (s t : Q) : s <= t -> (nearest s <= nearest t)%Z.
Proof.
  intro Hst.
  pose proof (Qfloor_resp_le _ _ Hst) as Hf.
  destruct (Z.eq_dec (Qfloor s) (Qfloor t)) as [E|E].
  - unfold nearest. cbv zeta. rewrite E.
    destruct (Qcompare_spec (2 * (s - inject_Z (Qfloor t))) 1) as [H1|H1|H1];
      destruct (Qcompare_spec (2 * (t - inject_Z (Qfloor t))) 1) as [H2|H2|H2];
      try lia; try (exfalso; lra);
      destruct (Z.even (Qfloor t)); lia.
  - destruct (nearest_cases s) as [[-> _]|[-> _]];
      destruct (nearest_cases t) as [[-> _]|[-> _]]; lia.
Qed.

(** *** The rounding of a positive number *)

Lemma exponent_mono (x y : Q) :
  0 < x -> x <= y -> (exponent x <= exponent y)%Z.
Proof.
  intros Hx Hxy. unfold exponent.
  pose proof (ilog2_mono x y Hx Hxy). lia.
Qed.

(** Divided by the power of two of its exponent, a positive number is
    below [2^53], and it is at least [2^52] unless it is subnormal. *)
Lemma scaled_upper (x : Q) : 0 < x -> x / 2 ^ exponent x < 2 ^ 53.
Proof.
  intro Hx. apply Qlt_shift_div_r; [apply pow2_pos|].
  rewrite <- pow2_add.
  destruct (ilog2_spec x Hx) as [_ H]. rewrite <- pow2_succ in H.
  eapply Qlt_le_trans; [exact H|]. apply pow2_le. unfold exponent. lia.
Qed.

Lemma scaled_lower (x : Q) :
  0 < x -> (-1074 < exponent x)%Z -> 2 ^ 52 <= x / 2 ^ exponent x.
Proof.
  intros Hx He. apply Qle_shift_div_l; [apply pow2_pos|].
  rewrite <- pow2_add.
  destruct (ilog2_spec x Hx) as [H _].
  eapply Qle_trans; [|exact H]. apply pow2_le. unfold exponent in *. lia.
Qed.

Lemma significand_upper (x : Q) :
  0 < x -> (nearest (x / 2 ^ exponent x) <= 2 ^ 53)%Z.
Proof.
  intro Hx.
  rewrite <- (nearest_Z (2 ^ 53) (2 ^ 53)) by (now rewrite pow2_Z).
  apply nearest_mono. apply Qlt_le_weak. now apply scaled_upper.
Qed.

Lemma significand_lower (x : Q) :
  0 < x -> (-1074 < exponent x)%Z ->
  (2 ^ 52 <= nearest (x / 2 ^ exponent x))%Z.
Proof.
  intros Hx He.
  rewrite <- (nearest_Z (2 ^ 52) (2 ^ 52)) by (now rewrite pow2_Z).
  apply nearest_mono. now apply scaled_lower.
Qed.

Lemma significand_nonneg (x : Q) (e : Z) :
  0 < x -> (0 <= nearest (x / 2 ^ e))%Z.
Proof.
  intro Hx.
  rewrite <- (nearest_Z 0 0) by reflexivity.
  apply nearest_mono. apply Qle_shift_div_l; [apply pow2_pos|]. lra.
Qed.

Lemma roundPos_nonneg (x : Q) : 0 < x -> 0 <= roundPos x.
Proof.
  intro Hx. unfold roundPos. cbv zeta.
  apply Qmult_le_0_compat; [|apply Qlt_le_weak, pow2_pos].
  change 0 with (inject_Z 0). rewrite <- Zle_Qle.
  now apply significand_nonneg.
Qed.

(** The rounding of positive numbers keeps their order. *)
Lemma roundPos_mono (x y : Q) :
  0 < x -> x <= y -> roundPos x <= roundPos y.
Proof.
  intros Hx Hxy. assert (Hy : 0 < y) by lra.
  pose proof (exponent_mono x y Hx Hxy) as He.
  unfold roundPos. cbv zeta.
  destruct (Z.eq_dec (exponent x) (exponent y)) as [E|E].
  - rewrite E. apply Qmult_le_compat_r; [|apply Qlt_le_weak, pow2_pos].
    rewrite <- Zle_Qle. apply nearest_mono.
    apply Qmult_le_compat_r; [exact Hxy|].
    apply Qlt_le_weak, Qinv_lt_0_compat, pow2_pos.
  - assert (Hsub : (-1074 < exponent y)%Z) by (unfold exponent in *; lia).
    pose proof (significand_upper x Hx) as Hu.
    pose proof (significand_lower y Hy Hsub) as Hl.
    rewrite Zle_Qle in Hu, Hl. rewrite !pow2_Z in Hu, Hl by lia.
    pose proof (pow2_pos (exponent x)) as Px.
    pose proof (pow2_pos (exponent y)) as Py.
    assert (H1 : inject_Z (nearest (x / 2 ^ exponent x)) * 2 ^ exponent x
                 <= 2 ^ 53 * 2 ^ exponent x)
      by (apply Qmult_le_compat_r; lra).
    assert (H2 : 2 ^ 52 * 2 ^ exponent y
                 <= inject_Z (nearest (y / 2 ^ exponent y)) * 2 ^ exponent y)
      by (apply Qmult_le_compat_r; lra).
    assert (H3 : 2 ^ 53 * 2 ^ exponent x <= 2 ^ 52 * 2 ^ exponent y).
    { rewrite <- !pow2_add. apply pow2_le. lia. }
    lra.
Qed.

(** The rounding of a positive number is off by at most half a unit of
    its exponent. *)
Lemma roundPos_error (x : Q) :
  0 < x ->
  x - 2 ^ exponent x / 2 <= roundPos x /\ roundPos x <= x + 2 ^ exponent x / 2.
Proof.
  intro Hx. unfold roundPos. cbv zeta.
  pose proof (pow2_pos (exponent x)) as P.
  destruct (nearest_error (x / 2 ^ exponent x)) as [H1 H2].
  set (m := inject_Z (nearest (x / 2 ^ exponent x))) in *.
  assert (Hx' : x == x / 2 ^ exponent x * 2 ^ exponent x)
    by (field; lra).
  set (t := x / 2 ^ exponent x) in *.
  assert (H3 : (t - (1 # 2)) * 2 ^ exponent x <= m * 2 ^ exponent x)
    by (apply Qmult_le_compat_r; lra).
  assert (H4 : m * 2 ^ exponent x <= (t + (1 # 2)) * 2 ^ exponent x)
    by (apply Qmult_le_compat_r; lra).
  clearbody m t. split.
  - rewrite Hx' at 1. eapply Qle_trans; [|exact H3].
    apply Qle_lteq. right. field.
  - rewrite Hx' at 2. eapply Qle_trans; [exact H4|].
    apply Qle_lteq. right. field.
Qed.

(** The unit of a positive number is at most [2^-52] of it, or the
    smallest one. *)
Lemma exponent_le (x : Q) :
  0 < x -> 2 ^ exponent x <= x * 2 ^ (-52) + 2 ^ (-1074).
Proof.
  intro Hx. unfold exponent.
  pose proof (pow2_pos (-1074)) as P1.
  assert (P2 : 0 <= x * 2 ^ (-52)).
  { apply Qmult_le_0_compat; [lra | apply Qlt_le_weak, pow2_pos]. }
  destruct (Z.max_spec (ilog2 x - 52) (-1074)) as [[_ ->]|[_ ->]]; [lra|].
  destruct (ilog2_spec x Hx) as [H _].
  replace (ilog2 x - 52)%Z with (ilog2 x + -52)%Z by lia.
  rewrite pow2_add.
  assert (2 ^ ilog2 x * 2 ^ (-52) <= x * 2 ^ (-52)).
  { apply Qmult_le_compat_r; [exact H|]. apply Qlt_le_weak, pow2_pos. }
  lra.
Qed.

(** *** The rounding *)

Lemma round_pos (x : Q) : 0 < x -> round x = roundPos (Qred x).
Proof.
  intro Hx. unfold round. cbv zeta.
  assert (H : 0 < Qred x) by (now rewrite Qred_correct).
  destruct (Qred x) as [[|n|n] d]; try reflexivity; discriminate.
Qed.

Lemma round_neg (x : Q) : x < 0 -> round x = - roundPos (- Qred x).
Proof.
  intro Hx. unfold round. cbv zeta.
  assert (H : Qred x < 0) by (now rewrite Qred_correct).
  destruct (Qred x) as [[|n|n] d]; try reflexivity; discriminate.
Qed.

Lemma round_zero (x : Q) : x == 0 -> round x = 0.
Proof.
  intro Hx. unfold round. cbv zeta.
  assert (H : Qred x == 0) by (now rewrite Qred_correct).
  destruct (Qred x) as [[|n|n] d]; try reflexivity; discriminate.
Qed.

Lemma round_nonneg (x : Q) : 0 <= x -> 0 <= round x.
Proof.
  intro Hx. destruct (Qlt_le_dec 0 x) as [H|H].
  - rewrite (round_pos x H). apply roundPos_nonneg. now rewrite Qred_correct.
  - rewrite (round_zero x) by lra. apply Qle_refl.
Qed.

Lemma round_nonpos (x : Q) : x <= 0 -> round x <= 0.
Proof.
  intro Hx. destruct (Qlt_le_dec x 0) as [H|H].
  - rewrite (round_neg x H).
    assert (0 <= roundPos (- Qred x)).
    { apply roundPos_nonneg. rewrite Qred_correct. lra. }
    lra.
  - rewrite (round_zero x) by lra. apply Qle_refl.
Qed.

(** The rounding keeps the order: the sums, products and quotients of the
    source grow with their operands as the exact ones do. *)
Lemma round_mono (x y : Q) : x <= y -> round x <= round y.
Proof.
  intro Hxy.
  destruct (Qlt_le_dec 0 x) as [Hx|Hx].
  - rewrite (round_pos x Hx), (round_pos y) by lra.
    apply roundPos_mono; rewrite !Qred_correct; assumption.
  - destruct (Qlt_le_dec y 0) as [Hy|Hy].
    + rewrite (round_neg x), (round_neg y) by lra.
      assert (roundPos (- Qred y) <= roundPos (- Qred x)).
      { apply roundPos_mono; rewrite !Qred_correct; lra. }
      lra.
    + pose proof (round_nonpos x Hx). pose proof (round_nonneg y Hy). lra.
Qed.

(** The rounding is off by at most the fraction [2^-53] of a number, or
    by half the smallest double. *)
Lemma round_error (x : Q) :
  0 <= x ->
  x * (1 - 2 ^ (-53)) - 2 ^ (-1075) <= round x
  /\ round x <= x * (1 + 2 ^ (-53)) + 2 ^ (-1075).
Proof.
  intro Hx. destruct (Qlt_le_dec 0 x) as [H|H].
  - rewrite (round_pos x H).
    assert (Hr : 0 < Qred x) by (now rewrite Qred_correct).
    destruct (roundPos_error (Qred x) Hr) as [H1 H2].
    pose proof (exponent_le (Qred x) Hr) as He.
    set (u := 2 ^ exponent (Qred x)) in *.
    set (r := roundPos (Qred x)) in *.
    clearbody u r.
    rewrite Qred_correct in H1, H2, He.
    assert (E1 : 2 ^ (-52) == 2 * 2 ^ (-53)) by reflexivity.
    assert (E2 : 2 ^ (-1074) == 2 * 2 ^ (-1075)) by reflexivity.
    rewrite E1, E2 in He.
    set (a := 2 ^ (-53)) in *. set (b := 2 ^ (-1075)) in *.
    assert (H3 : u / 2 <= x * a + b).
    { apply Qle_shift_div_r; [reflexivity|]. lra. }
    clearbody a b. split; lra.
  - rewrite (round_zero x) by lra.
    assert (E : x == 0) by lra. rewrite E.
    split; [|]; vm_compute; discriminate.
Qed.

(** *** Doubles are their own rounding *)

Lemma ilog2_upper (x : Q) (k : Z) : 0 < x -> x < 2 ^ k -> (ilog2 x < k)%Z.
Proof.
  intros Hx Hk. destruct (ilog2_spec x Hx) as [H _].
  destruct (Z_lt_ge_dec (ilog2 x) k) as [L|L]; [exact L|].
  exfalso. pose proof (pow2_le k (ilog2 x) ltac:(lia)). lra.
Qed.

(** A positive number [m * 2^e] with [m < 2^53] and [-1074 <= e] is a
    double. *)
Lemma roundPos_double (x : Q) (m e : Z) :
  x == inject_Z m * 2 ^ e -> (0 < m < 2 ^ 53)%Z -> (-1074 <= e)%Z ->
  roundPos x == x.
Proof.
  intros Hx Hm He.
  pose proof (pow2_pos e) as Pe.
  assert (Hm1 : 0 < inject_Z m)
    by (change 0 with (inject_Z 0); rewrite <- Zlt_Qlt; lia).
  assert (Hm2 : inject_Z m < 2 ^ 53).
  { rewrite <- pow2_Z by lia. rewrite <- Zlt_Qlt. lia. }
  assert (Hpos : 0 < x).
  { rewrite Hx. apply Qmult_lt_0_compat; assumption. }
  assert (Hup : x < 2 ^ (53 + e)).
  { rewrite Hx, pow2_add. apply Qmult_lt_compat_r; assumption. }
  pose proof (ilog2_upper x (53 + e) Hpos Hup) as Hi.
  unfold roundPos. cbv zeta.
  set (E := exponent x).
  assert (HE : (E <= e)%Z) by (unfold E, exponent; lia).
  assert (Hs : x / 2 ^ E == inject_Z (m * 2 ^ (e - E))).
  { rewrite inject_Z_mult, pow2_Z by lia.
    replace (e - E)%Z with (e + - E)%Z by lia.
    rewrite pow2_add, Qpower_opp, Hx.
    field. pose proof (pow2_pos E). lra. }
  rewrite (nearest_Z _ _ Hs), <- Hs.
  field. pose proof (pow2_pos E). lra.
Qed.

(** The rounding of a positive number is such a number. *)
Lemma roundPos_form (x : Q) :
  0 < x ->
  roundPos x == 0
  \/ exists m e, roundPos x == inject_Z m * 2 ^ e
                 /\ (0 < m < 2 ^ 53)%Z /\ (-1074 <= e)%Z.
Proof.
  intro Hx.
  pose proof (significand_upper x Hx) as Hu.
  pose proof (significand_nonneg x (exponent x) Hx) as Hl.
  unfold roundPos. cbv zeta.
  set (m := nearest (x / 2 ^ exponent x)) in *.
  assert (He : (-1074 <= exponent x)%Z) by (unfold exponent; lia).
  destruct (Z.eq_dec m 0) as [E0|E0].
  { left. rewrite E0. ring. }
  right.
  destruct (Z.eq_dec m (2 ^ 53)) as [E|E].
  - exists (2 ^ 52)%Z, (exponent x + 1)%Z.
    split; [|split; lia].
    rewrite E, pow2_add. change (2 ^ 1) with 2.
    change (inject_Z (2 ^ 53)) with (inject_Z (2 ^ 52) * 2). ring.
  - exists m, (exponent x). split; [reflexivity|]. split; lia.
Qed.

Lemma round_double (x : Q) (m e : Z) :
  x == inject_Z m * 2 ^ e -> (Z.abs m < 2 ^ 53)%Z -> (-1074 <= e)%Z ->
  round x == x.
Proof.
  intros Hx Hm He.
  pose proof (pow2_pos e) as Pe.
  destruct (Z.lt_trichotomy m 0) as [L|[L|L]].
  - assert (Hneg : x < 0).
    { rewrite Hx. assert (inject_Z m < 0)
        by (change 0 with (inject_Z 0); rewrite <- Zlt_Qlt; lia).
      setoid_replace 0 with (0 * 2 ^ e) by ring.
      apply Qmult_lt_compat_r; assumption. }
    rewrite (round_neg x Hneg).
    rewrite (roundPos_double (- Qred x) (- m) e);
      [rewrite Qred_correct; ring| |lia|lia].
    rewrite Qred_correct, Hx, inject_Z_opp. ring.
  - subst m. rewrite (round_zero x); [|rewrite Hx; ring].
    rewrite Hx. ring.
  - assert (Hpos : 0 < x).
    { rewrite Hx. apply Qmult_lt_0_compat; [|exact Pe].
      change 0 with (inject_Z 0). rewrite <- Zlt_Qlt. lia. }
    rewrite (round_pos x Hpos).
    rewrite (roundPos_double (Qred x) m e); [apply Qred_correct| |lia|lia].
    now rewrite Qred_correct.
Qed.

(** Rounding twice is rounding once: the rounding of the operands in
    [mul], [add] and [div] leaves doubles as they are. *)
Lemma round_idempotent (x : Q) : round (round x) == round x.
Proof.
  destruct (Q_dec x 0) as [[H|H]|H].
  - rewrite (round_neg x H).
    assert (Hr : 0 < - Qred x) by (rewrite Qred_correct; lra).
    destruct (roundPos_form _ Hr) as [E|(m & e & E & Hm & He)].
    + apply (round_double _ 0 0); [rewrite E; reflexivity|lia|lia].
    + apply (round_double _ (- m) e); [|lia|lia].
      rewrite E, inject_Z_opp. ring.
  - rewrite (round_pos x H).
    assert (Hr : 0 < Qred x) by (now rewrite Qred_correct).
    destruct (roundPos_form _ Hr) as [E|(m & e & E & Hm & He)].
    + apply (round_double _ 0 0); [rewrite E; reflexivity|lia|lia].
    + apply (round_double _ m e); [exact E|lia|lia].
  - rewrite (round_zero x H). reflexivity.
Qed.

(** Whole numbers up to [2^53] are doubles. *)
Lemma round_Z (n : Z) : (Z.abs n < 2 ^ 53)%Z -> round (inject_Z n) == inject_Z n.
Proof.
  intro Hn. apply (round_double _ n 0); [|exact Hn|lia].
  change (2 ^ 0) with 1. ring.
Qed.

(** *** The nearest double *)

(** No whole number is nearer to [t] than [nearest t]. *)
Lemma nearest_best (t : Q) (k : Z) :
  Qabs (inject_Z (nearest t) - t) <= Qabs (inject_Z k - t).
Proof.
  pose proof (Qfloor_le t) as H1. pose proof (Qlt_floor t) as H2.
  rewrite inject_Z_plus in H2. change (inject_Z 1) with 1 in H2.
  assert (Hk : inject_Z k <= inject_Z (Qfloor t)
               \/ inject_Z (Qfloor t) + 1 <= inject_Z k).
  { destruct (Z_le_gt_dec k (Qfloor t)) as [L|L].
    - left. now rewrite <- Zle_Qle.
    - right. rewrite <- (inject_Z_plus _ 1), <- Zle_Qle. lia. }
  apply Qabs_Qle_condition.
  destruct (nearest_cases t) as [[-> H]|[-> H]];
    rewrite ?inject_Z_plus; change (inject_Z 1) with 1;
    destruct Hk as [Hk|Hk].
  - rewrite (Qabs_neg (inject_Z k - t)) by lra. split; lra.
  - rewrite (Qabs_pos (inject_Z k - t)) by lra. split; lra.
  - rewrite (Qabs_neg (inject_Z k - t)) by lra. split; lra.
  - rewrite (Qabs_pos (inject_Z k - t)) by lra. split; lra.
Qed.

Lemma representable_opp (r : Q) : representable r -> representable (- r).
Proof.
  intros (m & e & E & Hm & He). exists (- m)%Z, e.
  split; [rewrite E, inject_Z_opp; ring|]. split; lia.
Qed.

(** The rounding of a positive number is as near to it as any multiple of
    the power of two of its exponent. *)
Lemma roundPos_multiple (x : Q) (k : Z) :
  0 < x ->
  Qabs (roundPos x - x) <= Qabs (inject_Z k * 2 ^ exponent x - x).
Proof.
  intro Hx. unfold roundPos. cbv zeta.
  pose proof (pow2_pos (exponent x)) as Pu.
  set (u := 2 ^ exponent x) in *.
  pose proof (nearest_best (x / u) k) as Hb.
  set (n := inject_Z (nearest (x / u))) in *.
  assert (E1 : n * u - x == (n - x / u) * u) by (field; lra).
  assert (E2 : inject_Z k * u - x == (inject_Z k - x / u) * u)
    by (field; lra).
  rewrite E1, E2, !Qabs_Qmult, (Qabs_pos u) by lra.
  apply Qmult_le_compat_r; [exact Hb | lra].
Qed.

(** No double is nearer to a positive number than its rounding. *)
Lemma roundPos_nearest (x r : Q) :
  0 < x -> representable r -> Qabs (roundPos x - x) <= Qabs (r - x).
Proof.
  intros Hx (m & e' & Er & Hm & He').
  destruct (Z_le_gt_dec (exponent x) e') as [L|L].
  - (* [r] is a multiple of the unit of [x] *)
    pose proof (roundPos_multiple x (m * 2 ^ (e' - exponent x)) Hx) as H.
    assert (E : inject_Z (m * 2 ^ (e' - exponent x)) * 2 ^ exponent x == r).
    { rewrite Er, inject_Z_mult, pow2_Z by lia.
      rewrite <- Qmult_assoc, <- pow2_add.
      now replace (e' - exponent x + exponent x)%Z with e' by lia. }
    now rewrite E in H.
  - (* [r] is below the binade of [x] *)
    assert (Hsub : (-1074 < exponent x)%Z) by lia.
    pose proof (scaled_lower x Hx Hsub) as Hlow.
    pose proof (pow2_pos (exponent x)) as Pu.
    pose proof (roundPos_multiple x (2 ^ 52) Hx) as H.
    rewrite pow2_Z in H by lia.
    assert (Hb : 2 ^ 52 * 2 ^ exponent x <= x).
    { apply (Qmult_le_compat_r _ _ (2 ^ exponent x)) in Hlow; [|lra].
      eapply Qle_trans; [exact Hlow|]. apply Qle_lteq. right. field. lra. }
    assert (Hr : r < 2 ^ 52 * 2 ^ exponent x).
    { rewrite Er.
      assert (inject_Z m < 2 ^ 53).
      { rewrite <- pow2_Z by lia. rewrite <- Zlt_Qlt. lia. }
      apply Qlt_le_trans with (2 ^ 53 * 2 ^ e').
      - apply Qmult_lt_compat_r; [apply pow2_pos | assumption].
      - rewrite <- !pow2_add. apply pow2_le. lia. }
    rewrite (Qabs_neg (2 ^ 52 * 2 ^ exponent x - x)) in H by lra.
    rewrite (Qabs_neg (r - x)) by lra. lra.
Qed.

(** The rounding of a number is a double, *)
Lemma round_representable (x : Q) : representable (round x).
Proof.
  destruct (Q_dec x 0) as [[H|H]|H].
  - rewrite (round_neg x H). apply representable_opp.
    assert (Hr : 0 < - Qred x) by (rewrite Qred_correct; lra).
    destruct (roundPos_form _ Hr) as [E|(m & e & E & Hm & He)].
    + exists 0%Z, 0%Z. split; [rewrite E; reflexivity|]. split; lia.
    + exists m, e. split; [exact E|]. split; lia.
  - rewrite (round_pos x H).
    assert (Hr : 0 < Qred x) by (now rewrite Qred_correct).
    destruct (roundPos_form _ Hr) as [E|(m & e & E & Hm & He)].
    + exists 0%Z, 0%Z. split; [rewrite E; reflexivity|]. split; lia.
    + exists m, e. split; [exact E|]. split; lia.
  - rewrite (round_zero x H). exists 0%Z, 0%Z.
    split; [reflexivity|]. split; lia.
Qed.

(** and no double is nearer to the number. *)
Lemma round_nearest (x r : Q) :
  representable r -> Qabs (round x - x) <= Qabs (r - x).
Proof.
  intro Hr. destruct (Q_dec x 0) as [[H|H]|H].
  - rewrite (round_neg x H).
    assert (Hp : 0 < - Qred x) by (rewrite Qred_correct; lra).
    pose proof (roundPos_nearest _ _ Hp (representable_opp r Hr)) as Hn.
    set (y := roundPos (- Qred x)) in *. clearbody y.
    rewrite Qred_correct in Hn.
    assert (E1 : - y - x == - (y - - x)) by ring.
    assert (E2 : - r - - x == - (r - x)) by ring.
    rewrite E1, Qabs_opp. now rewrite E2, Qabs_opp in Hn.
  - rewrite (round_pos x H).
    assert (Hp : 0 < Qred x) by (now rewrite Qred_correct).
    pose proof (roundPos_nearest _ _ Hp Hr) as Hn.
    set (y := roundPos (Qred x)) in *. clearbody y.
    now rewrite Qred_correct in Hn.
  - rewrite (round_zero x H), H.
    setoid_replace (0 - 0) with 0 by ring. apply Qabs_nonneg.
Qed.

(** *** The arithmetic *)


Lemma mul_mono_l (x x' y : Q) : x <= x' -> 0 <= y -> mul x y <= mul x' y.
Proof.
  intros Hx Hy. unfold mul. apply round_mono.
  apply Qmult_le_compat_r; [now apply round_mono | now apply round_nonneg].
Qed.

(** The sum of two numbers that are not negative, as a double, is the
    exact sum up to the fraction [2^-51] of it and to the smallest
    double. *)
Lemma add_error (x y : Q) :
  0 <= x -> 0 <= y ->
  (x + y) * (1 - 2 ^ (-51)) - 2 ^ (-1073) <= add x y
  /\ add x y <= (x + y) * (1 + 2 ^ (-51)) + 2 ^ (-1073).
Proof.
  intros Hx Hy. unfold add.
  destruct (round_error x Hx) as [H1 H2].
  destruct (round_error y Hy) as [H3 H4].
  pose proof (round_nonneg x Hx) as Hu. pose proof (round_nonneg y Hy) as Hv.
  destruct (round_error (round x + round y) ltac:(lra)) as [H5 H6].
  assert (E : 2 ^ (-1073) == 4 * 2 ^ (-1075)) by reflexivity.
  rewrite E. pose proof (pow2_pos (-1075)) as Ht.
  set (t := 2 ^ (-1075)) in *.
  set (P := round (round x + round y)) in *.
  set (u := round x) in *. set (w := round y) in *.
  clearbody t P u w.
  change (2 ^ (-53)) with (1 # 9007199254740992) in *.
  change (2 ^ (-51)) with (1 # 2251799813685248).
  split; lra.
Qed.

(** The product of a length and a whole number, as a double, is the exact
    product up to [2^-20], as long as that is at most [2^30]. *)
Lemma mul_Z_error (d : Q) (n : Z) :
  0 <= d -> (0 <= n < 2 ^ 53)%Z -> d * inject_Z n <= 2 ^ 30 ->
  d * inject_Z n - 2 ^ (-20) <= mul d (inject_Z n)
  /\ mul d (inject_Z n) <= d * inject_Z n + 2 ^ (-20).
Proof.
  intros Hd Hn Hz. unfold mul.
  rewrite (round_ext (round d * round (inject_Z n)) (round d * inject_Z n))
    by (now rewrite (round_Z n) by lia).
  assert (Hn0 : 0 <= inject_Z n)
    by (change 0 with (inject_Z 0); rewrite <- Zle_Qle; lia).
  assert (Hn1 : inject_Z n <= 2 ^ 53).
  { rewrite <- pow2_Z by lia. rewrite <- Zle_Qle. lia. }
  destruct (round_error d Hd) as [H1 H2].
  pose proof (round_nonneg d Hd) as Hu.
  assert (Hy : 0 <= round d * inject_Z n) by (now apply Qmult_le_0_compat).
  destruct (round_error _ Hy) as [H3 H4].
  assert (H5 : (d * (1 - 2 ^ (-53)) - 2 ^ (-1075)) * inject_Z n
               <= round d * inject_Z n)
    by (apply Qmult_le_compat_r; assumption).
  assert (H6 : round d * inject_Z n
               <= (d * (1 + 2 ^ (-53)) + 2 ^ (-1075)) * inject_Z n)
    by (apply Qmult_le_compat_r; assumption).
  assert (HT : 2 ^ (-1075) * inject_Z n <= 2 ^ (-30)).
  { apply Qle_trans with (2 ^ (-1075) * 2 ^ 53).
    - apply (proj2 (Qmult_le_l _ _ _ (pow2_pos (-1075)))). exact Hn1.
    - rewrite <- pow2_add. apply pow2_le. lia. }
  assert (HT0 : 0 <= 2 ^ (-1075) * inject_Z n).
  { apply Qmult_le_0_compat; [apply Qlt_le_weak, pow2_pos | exact Hn0]. }
  assert (Ht : 2 ^ (-1075) <= 2 ^ (-30)) by (apply pow2_le; lia).
  pose proof (pow2_pos (-1075)) as Ht0.
  set (P := round (round d * inject_Z n)) in *.
  set (w := round d * inject_Z n) in *.
  set (T := 2 ^ (-1075) * inject_Z n) in *.
  set (t := 2 ^ (-1075)) in *.
  set (z := d * inject_Z n) in *.
  assert (H5' : z * (1 - 2 ^ (-53)) - T <= w).
  { eapply Qle_trans; [|exact H5]. apply Qle_lteq. right.
    unfold z, T, t. ring. }
  assert (H6' : w <= z * (1 + 2 ^ (-53)) + T).
  { eapply Qle_trans; [exact H6|]. apply Qle_lteq. right.
    unfold z, T, t. ring. }
  assert (Hz0 : 0 <= z) by (unfold z; now apply Qmult_le_0_compat).
  clearbody P w T t z.
  change (2 ^ (-53)) with (1 # 9007199254740992) in *.
  change (2 ^ (-30)) with (1 # 1073741824) in *.
  change (2 ^ (-20)) with (1 # 1048576).
  change (2 ^ 30) with 1073741824 in Hz.
  split; lra.
Qed.

(** The ceiling of a number: the whole number at or above it and less
    than one above it. *)
Lemma Qceiling_unique (x : Q) (c : Z) :
  inject_Z c - 1 < x -> x <= inject_Z c -> Qceiling x = c.
Proof.
  intros H1 H2.
  pose proof (Qle_ceiling x) as H3. pose proof (Qceiling_lt x) as H4.
  unfold Z.sub in H4. rewrite inject_Z_plus, inject_Z_opp in H4.
  change (inject_Z 1) with 1 in H4.
  assert (L1 : inject_Z (Qceiling x) < inject_Z (c + 1)).
  { rewrite inject_Z_plus. change (inject_Z 1) with 1. lra. }
  assert (L2 : inject_Z c < inject_Z (Qceiling x + 1)).
  { rewrite inject_Z_plus. change (inject_Z 1) with 1. lra. }
  rewrite <- Zlt_Qlt in L1, L2. lia.
Qed.

End DoubleFacts.

(** ** The timeline *)

Section TimelineFacts.

Import Timeline.

Variables fps overlap : Z.

Lemma timeline_from_length (scenes : list Scene) :
  forall cur, length (timeline_from fps overlap cur scenes) = length scenes.
Proof.
  induction scenes as [|s rest IH]; intro cur; simpl; [reflexivity|].
  now rewrite IH.
Qed.

Lemma timeline_from_durations (scenes : list Scene) :
  forall cur,
    map durationInFrames (timeline_from fps overlap cur scenes)
    = map (sceneFrames fps) scenes.
Proof.
  induction scenes as [|s rest IH]; intro cur; simpl; [reflexivity|].
  now rewrite IH.
Qed.

(** The cursor after a prefix of the placements: the next start frame is
    the previous one plus the clamped step. *)
Lemma timeline_from_step (scenes : list Scene) :
  forall cur i p p',
    nth_error (timeline_from fps overlap cur scenes) i = Some p ->
    nth_error (timeline_from fps overlap cur scenes) (S i) = Some p' ->
    startFrame p' = startFrame p + Z.max 0 (durationInFrames p - overlap).
Proof.
  induction scenes as [|s rest IH]; intros cur i p p' Hp Hp'.
  - destruct i; discriminate.
  - destruct i as [|i].
    + simpl in Hp. injection Hp as <-.
      simpl in Hp'. destruct rest as [|s' rest']; [discriminate|].
      simpl in Hp'. injection Hp' as <-. reflexivity.
    + simpl in Hp, Hp'. exact (IH _ _ _ _ Hp Hp').
Qed.

Lemma timeline_from_head (scenes : list Scene) cur p :
  nth_error (timeline_from fps overlap cur scenes) 0 = Some p ->
  startFrame p = cur.
Proof.
  destruct scenes; simpl; [discriminate|]. now intros [= <-].
Qed.

(** Every start frame is at or after the cursor the layout started from. *)
Lemma timeline_from_lower (scenes : list Scene) :
  forall cur i p,
    nth_error (timeline_from fps overlap cur scenes) i = Some p ->
    cur <= startFrame p.
Proof.
  induction scenes as [|s rest IH]; intros cur i p Hp.
  - destruct i; discriminate.
  - destruct i as [|i]; simpl in Hp.
    + injection Hp as <-. simpl. lia.
    + apply IH in Hp. lia.
Qed.

(** The start frame of the placement at [j] is at or after the one at
    [i], for [i <= j]. *)
Lemma timeline_from_monotone (scenes : list Scene) :
  forall cur i j p p',
    (i <= j)%nat ->
    nth_error (timeline_from fps overlap cur scenes) i = Some p ->
    nth_error (timeline_from fps overlap cur scenes) j = Some p' ->
    startFrame p <= startFrame p'.
Proof.
  induction scenes as [|s rest IH]; intros cur i j p p' Hij Hp Hp'.
  - destruct i; discriminate.
  - destruct i as [|i], j as [|j]; simpl in Hp, Hp'; try lia.
    + injection Hp as <-. injection Hp' as <-. simpl. lia.
    + injection Hp as <-. simpl. apply timeline_from_lower in Hp'. lia.
    + eapply (IH _ i j); eauto. lia.
Qed.

End TimelineFacts.

Section TimelineClaims.

Import Timeline.

(** C1, as the code has it.  For every scene list and every positive
    frame rate the builder returns one placement per scene, in the order
    of the scenes; the placement of scene [i] has for duration the ceiling
    of the product [durationInSeconds * fps] as a double, which is not
    always the ceiling of the exact product; the first start frame is 0;
    each next start frame is the previous one plus
    [max 0 (durationInFrames - overlap)]; start frames never decrease.
    [timeline] is [buildTimeline FPS TRANSITION_DURATION_IN_FRAMES]. *)
Theorem timeline_placements (fps overlap : Z) (scenes : list Scene)
        (Hfps : 0 < fps) :
  let tl := buildTimeline fps overlap scenes in
  length tl = length scenes
  /\ (forall i scene, nth_error scenes i = Some scene ->
       exists p, nth_error tl i = Some p
                 /\ durationInFrames p
                    = Qceiling (Double.mul (durationInSeconds scene)
                                          (inject_Z fps)))
  /\ (forall p, nth_error tl 0 = Some p -> startFrame p = 0)
  /\ (forall i p p', nth_error tl i = Some p ->
                     nth_error tl (S i) = Some p' ->
       startFrame p' = startFrame p + Z.max 0 (durationInFrames p - overlap))
  /\ (forall i j p p', (i <= j)%nat ->
                       nth_error tl i = Some p -> nth_error tl j = Some p' ->
       startFrame p <= startFrame p').
Proof.
  intro tl. subst tl. unfold buildTimeline.
  split; [apply timeline_from_length|].
  split.
  { intros i scene Hi.
    pose proof (timeline_from_durations fps overlap scenes 0) as Hd.
    apply (f_equal (fun l => nth_error l i)) in Hd.
    rewrite !nth_error_map, Hi in Hd. simpl in Hd.
    destruct (nth_error (timeline_from fps overlap 0 scenes) i) as [p|];
      [|discriminate].
    exists p. split; [reflexivity|]. simpl in Hd. now injection Hd. }
  split; [intros p; apply timeline_from_head|].
  split; [apply timeline_from_step|apply timeline_from_monotone].
Qed.

End TimelineClaims.

(** A run of C1 on the constants of types.ts, on scenes of 5 s, 0.25 s and
    3 s: the second scene has 8 frames, fewer than the overlap, its step
    is clamped to 0 and the third scene starts on the same frame. *)
Lemma timeline_placements_witness :
  let scenes := [Vocab.sceneOfDuration 5; Vocab.sceneOfDuration (1 # 4);
                 Vocab.sceneOfDuration 3] in
  let tl := Timeline.buildTimeline 30 15 scenes in
  tl = [ {| Timeline.startFrame := 0; Timeline.durationInFrames := 150 |};
         {| Timeline.startFrame := 135; Timeline.durationInFrames := 8 |};
         {| Timeline.startFrame := 135; Timeline.durationInFrames := 90 |} ]
  /\ length tl = 3%nat
  /\ (forall i scene,
         nth_error scenes i = Some scene ->
         exists p, nth_error tl i = Some p
                   /\ Timeline.durationInFrames p
                      = Qceiling (Double.mul (durationInSeconds scene)
                                            (inject_Z 30)))
  /\ (forall p, nth_error tl 0 = Some p -> Timeline.startFrame p = 0)
  /\ (forall i p p', nth_error tl i = Some p ->
                     nth_error tl (S i) = Some p' ->
       Timeline.startFrame p'
       = Timeline.startFrame p + Z.max 0 (Timeline.durationInFrames p - 15))
  /\ (forall i j p p', (i <= j)%nat ->
                       nth_error tl i = Some p -> nth_error tl j = Some p' ->
       Timeline.startFrame p <= Timeline.startFrame p').
Proof.
  intros scenes tl. split; [vm_compute; reflexivity|].
  apply (timeline_placements 30 15 scenes).
  lia.
Defined.

(** C1 as stated fails on the ceiling.  A scene of 8.3 s at 30 frames per
    second: the product is 249.00000000000003 as a double, so the scene
    has 250 frames and the next one starts at frame 235, where the ceiling
    of the exact product of 8.3 and 30 is 249.  A scene of 0.1 s, read as
    the double it is: the product is 3 as a double and the scene has 3
    frames, where the exact product of that double and 30 is above 3 and
    its ceiling is 4. *)
Lemma timeline_frames_not_exact_ceiling :
  let long := Vocab.sceneOfDuration (83 # 10) in
  let tenth := Vocab.sceneOfDuration (Double.round (1 # 10)) in
  Timeline.buildTimeline 30 15 [long; long]
  = [ {| Timeline.startFrame := 0; Timeline.durationInFrames := 250 |};
      {| Timeline.startFrame := 235; Timeline.durationInFrames := 250 |} ]
  /\ Qceiling (durationInSeconds long * inject_Z 30) = 249
  /\ (durationInSeconds tenth
      == 3602879701896397 # 36028797018963968)%Q
  /\ Timeline.buildTimeline 30 15 [tenth]
     = [ {| Timeline.startFrame := 0; Timeline.durationInFrames := 3 |} ]
  /\ Qceiling (durationInSeconds tenth * inject_Z 30) = 4.
Proof.
  repeat split; vm_compute; reflexivity.
Qed.

Section TimelineIndependence.

Import Timeline Vocab.

Lemma sceneFrames_ext fps a b :
  durationInSeconds a == durationInSeconds b ->
  sceneFrames fps a = sceneFrames fps b.
Proof.
  intro H. unfold sceneFrames, Double.mul. now rewrite (round_ext _ _ H).
Qed.

Lemma timeline_from_ext fps overlap l1 l2 :
  sameDurations l1 l2 ->
  forall cur,
    timeline_from fps overlap cur l1 = timeline_from fps overlap cur l2.
Proof.
  induction 1 as [|a b l1 l2 Hab _ IH]; intro cur; simpl; [reflexivity|].
  rewrite (sceneFrames_ext fps a b Hab). now rewrite IH.
Qed.

Lemma sameDurations_withoutAudio l :
  sameDurations l (map withoutAudio l).
Proof.
  induction l; constructor; [reflexivity|assumption].
Qed.

(** C10.  The placements depend on the scenes only through
    [durationInSeconds]: two scene lists of one length that agree on it
    index by index get the same placements, whatever their dialogue,
    audio or presentation fields are. *)
Theorem timeline_only_durations (l1 l2 : list Scene)
        (H : sameDurations l1 l2) :
  timeline l1 = timeline l2.
Proof.
  unfold timeline, buildTimeline. now apply timeline_from_ext.
Qed.

End TimelineIndependence.

(** Two scenes that differ in dialogue and audio, one placement list. *)
Lemma timeline_only_durations_witness :
  Timeline.timeline
    [ {| dialogue := [12399; 12356]%N; visualDescription := []; keyword := [];
         durationInSeconds := 5; backgroundColor := [];
         audioUrl := Some [98; 108; 111; 98]%N; phoneticDialogue := None;
         dataOverlay := Vocab.emptyOverlay |} ]
  = Timeline.timeline [ Vocab.sceneOfDuration (10 # 2) ].
Proof.
  apply timeline_only_durations.
  constructor; [reflexivity | constructor].
Defined.

Section CompositionLength.

Import Timeline Vocab.

Lemma fold_left_sceneFrames (l : list Scene) :
  forall acc,
    fold_left (fun acc scene => acc + sceneFrames FPS scene) l acc
    = acc + sumFrames FPS l.
Proof.
  induction l as [|s rest IH]; intro acc; simpl; [lia|].
  rewrite IH. lia.
Qed.

(** The length handed to the player: the frames of all scenes minus one
    overlap per transition, with no further clamp. *)
Lemma getDurationInFrames_sum (v : VideoScript) :
  scenes v <> [] ->
  getDurationInFrames (Some v)
  = sumFrames FPS (scenes v)
    - (Z.of_nat (length (scenes v)) - 1) * TRANSITION_DURATION_IN_FRAMES.
Proof.
  intro Hne. unfold getDurationInFrames. cbv zeta.
  rewrite fold_left_sceneFrames.
  destruct (scenes v) as [|s rest]; [congruence|].
  rewrite Z.max_r by (simpl length; lia). lia.
Qed.

(** The end of the last window, when every scene before the last is at
    least as long as the overlap. *)
Lemma timeline_from_last_end (l : list Scene) :
  forall cur s,
    Forall (fun a => TRANSITION_DURATION_IN_FRAMES <= sceneFrames FPS a) l ->
    exists p,
      nth_error
        (timeline_from FPS TRANSITION_DURATION_IN_FRAMES cur (l ++ [s]))
        (length l) = Some p
      /\ startFrame p + durationInFrames p
         = cur + sumFrames FPS (l ++ [s])
           - Z.of_nat (length l) * TRANSITION_DURATION_IN_FRAMES.
Proof.
  induction l as [|a rest IH]; intros cur s Hall.
  - simpl. eexists. split; [reflexivity|]. simpl. lia.
  - inversion Hall as [|? ? Ha Hrest]; subst.
    destruct (IH (cur + Z.max 0 (sceneFrames FPS a
                                 - TRANSITION_DURATION_IN_FRAMES)) s Hrest)
      as (p & Hp & Hend).
    exists p. split; [exact Hp|].
    rewrite Hend. cbn [app sumFrames fold_right length].
    fold (sumFrames FPS (rest ++ [s])).
    rewrite Nat2Z.inj_succ. lia.
Qed.

(** On scene lists whose scenes (the last one apart) are no shorter than
    the overlap, the player length is the end of the last window. *)
Lemma getDurationInFrames_last_end (l : list Scene) (s : Scene) :
  Forall (fun a => TRANSITION_DURATION_IN_FRAMES <= sceneFrames FPS a) l ->
  exists p,
    nth_error (timeline (l ++ [s])) (length l) = Some p
    /\ getDurationInFrames (Some (scriptOf (l ++ [s])))
       = startFrame p + durationInFrames p.
Proof.
  intro Hall.
  destruct (timeline_from_last_end l 0 s Hall) as (p & Hp & Hend).
  exists p. split; [exact Hp|].
  rewrite getDurationInFrames_sum by (simpl; destruct l; discriminate).
  rewrite Hend. simpl scenes. rewrite length_app. simpl length. lia.
Qed.

(** C3, on the code.  A 0.3 s scene followed by a 5 s scene: the player
    length is 144 frames while the last window is [0, 150); two 0.1 s
    scenes: the player length is -9 while the last window is [0, 3). *)
Theorem getDurationInFrames_not_clamped :
  getDurationInFrames
    (Some (scriptOf [sceneOfDuration (3 # 10); sceneOfDuration 5])) = 144
  /\ timeline [sceneOfDuration (3 # 10); sceneOfDuration 5]
     = [ {| startFrame := 0; durationInFrames := 9 |};
         {| startFrame := 0; durationInFrames := 150 |} ]
  /\ getDurationInFrames
       (Some (scriptOf [sceneOfDuration (1 # 10); sceneOfDuration (1 # 10)]))
     = -9
  /\ timeline [sceneOfDuration (1 # 10); sceneOfDuration (1 # 10)]
     = [ {| startFrame := 0; durationInFrames := 3 |};
         {| startFrame := 0; durationInFrames := 3 |} ].
Proof.
  repeat split; vm_compute; reflexivity.
Qed.

(** C7.  Scenes of 5 s, 3 s and 4 s at 30 frames per second with an
    overlap of 15 frames: the lengths are 150, 90 and 120 frames, the
    windows start at 0, 135 and 210, and the player length is 330, the
    end of the last window. *)
Theorem timeline_example (a b c : Scene) :
  let l := [withDuration a 5; withDuration b 3; withDuration c 4] in
  FPS = 30 /\ TRANSITION_DURATION_IN_FRAMES = 15
  /\ map (sceneFrames FPS) l = [150; 90; 120]
  /\ timeline l
     = [ {| startFrame := 0; durationInFrames := 150 |};
         {| startFrame := 135; durationInFrames := 90 |};
         {| startFrame := 210; durationInFrames := 120 |} ]
  /\ getDurationInFrames (Some (scriptOf l)) = 330
  /\ 330 = 210 + 120.
Proof.
  repeat split; vm_compute; reflexivity.
Qed.

End CompositionLength.

Section Tracks.

Import Timeline Vocab.

(** A [map] whose callback succeeds at every index succeeds, and its
    result at [i] is the callback's at [index + i]. *)
Lemma mapi_from_nth {A B : Type} (f : A -> nat -> option B) (l : list A) :
  forall index,
    (forall i x, nth_error l i = Some x -> f x (index + i)%nat <> None) ->
    exists ys,
      mapi_from f index l = Some ys
      /\ forall i x, nth_error l i = Some x ->
           exists y, nth_error ys i = Some y
                     /\ f x (index + i)%nat = Some y.
Proof.
  induction l as [|x rest IH]; intros index Hf.
  - exists []. split; [reflexivity|]. intros [|i] y; discriminate.
  - simpl. pose proof (Hf 0%nat x eq_refl) as Hx.
    rewrite Nat.add_0_r in Hx.
    destruct (f x index) as [y|] eqn:Ey; [|congruence].
    destruct (IH (S index)) as (ys & Hys & Hnth).
    { intros i z Hz. replace (S index + i)%nat with (index + S i)%nat by lia.
      now apply Hf. }
    rewrite Hys. exists (y :: ys). split; [reflexivity|].
    intros [|i] z Hz; simpl in Hz.
    + injection Hz as <-. exists y. now rewrite Nat.add_0_r.
    + destruct (Hnth i z Hz) as (y' & Hy' & Hfy').
      exists y'. split; [exact Hy'|].
      now replace (index + S i)%nat with (S index + i)%nat by lia.
Qed.

(** [timeline[index]] is defined at every index of [scenes]. *)
Lemma timeline_defined (l : list Scene) i scene :
  nth_error l i = Some scene ->
  exists p, nth_error (timeline l) i = Some p.
Proof.
  intro H.
  destruct (nth_error (timeline l) i) as [p|] eqn:E; [now exists p|].
  apply nth_error_None in E.
  unfold timeline, buildTimeline in E. rewrite timeline_from_length in E.
  assert (i < length l)%nat by (apply nth_error_Some; congruence). lia.
Qed.

(** C8.  Both tracks render.  At every index the visual sequence has the
    start and the length of the placement of that index; when the scene
    has a (non-empty) [audioUrl] the audio sequence has the same start and
    the same length; otherwise the audio track holds no sequence there.
    The placements themselves are those of the scenes with every
    [audioUrl] removed. *)
Theorem tracks_frame_aligned (l : list Scene) (i : nat) (scene : Scene)
        (Hi : nth_error l i = Some scene) :
  exists vs au p v,
    visualTrack l = Some vs
    /\ audioTrack l = Some au
    /\ nth_error (timeline l) i = Some p
    /\ nth_error vs i = Some v
    /\ from v = startFrame p
    /\ seqDurationInFrames v = durationInFrames p
    /\ (if truthy (audioUrl scene)
        then exists a, nth_error au i = Some (Some a)
                       /\ from a = from v
                       /\ seqDurationInFrames a = seqDurationInFrames v
        else nth_error au i = Some None)
    /\ timeline l = timeline (map withoutAudio l).
Proof.
  unfold visualTrack, audioTrack. cbv zeta.
  destruct (mapi_from_nth
              (fun scene index =>
                 match nth_error (timeline l) index with
                 | None => None
                 | Some p =>
                     Some {| key := (Visual, index);
                             from := startFrame p;
                             seqDurationInFrames := durationInFrames p;
                             child := SceneComponent scene index |}
                 end) l 0%nat) as (vs & Hvs & Hv).
  { intros j x Hx. simpl.
    destruct (timeline_defined l j x Hx) as (q & ->). discriminate. }
  destruct (mapi_from_nth
              (fun scene index =>
                 match nth_error (timeline l) index with
                 | None => None
                 | Some p =>
                     match audioUrl scene with
                     | Some url =>
                         if truthy (Some url)
                         then Some (Some {| key := (Sound, index);
                                            from := startFrame p;
                                            seqDurationInFrames :=
                                              durationInFrames p;
                                            child := Audio url |})
                         else Some None
                     | None => Some None
                     end
                 end) l 0%nat) as (au & Hau & Ha).
  { intros j x Hx. simpl.
    destruct (timeline_defined l j x Hx) as (q & ->).
    destruct (audioUrl x) as [[|c url]|]; discriminate. }
  destruct (timeline_defined l i scene Hi) as (p & Hp).
  destruct (Hv i scene Hi) as (v & Hvi & Hfv).
  destruct (Ha i scene Hi) as (a & Hai & Hfa).
  simpl in Hfv, Hfa. rewrite Hp in Hfv, Hfa.
  injection Hfv as <-.
  exists vs, au, p. eexists.
  split; [exact Hvs|]. split; [exact Hau|]. split; [exact Hp|].
  split; [exact Hvi|]. split; [reflexivity|]. split; [reflexivity|].
  split.
  - destruct (audioUrl scene) as [[|c url]|]; simpl in Hfa |- *;
      injection Hfa as <-; try exact Hai.
    eexists. split; [exact Hai|]. now split.
  - unfold timeline, buildTimeline.
    apply timeline_from_ext, sameDurations_withoutAudio.
Qed.

End Tracks.

(** C8 on two scenes, the second one with audio. *)
Lemma tracks_frame_aligned_witness :
  exists vs au p v,
    Timeline.visualTrack
      [Vocab.sceneOfDuration 5;
       {| dialogue := []; visualDescription := []; keyword := [];
          durationInSeconds := 3; backgroundColor := [];
          audioUrl := Some [98; 108; 111; 98]%N; phoneticDialogue := None;
          dataOverlay := Vocab.emptyOverlay |}] = Some vs
    /\ Timeline.audioTrack
         [Vocab.sceneOfDuration 5;
          {| dialogue := []; visualDescription := []; keyword := [];
             durationInSeconds := 3; backgroundColor := [];
             audioUrl := Some [98; 108; 111; 98]%N; phoneticDialogue := None;
             dataOverlay := Vocab.emptyOverlay |}] = Some au
    /\ nth_error
         (Timeline.timeline
            [Vocab.sceneOfDuration 5;
             {| dialogue := []; visualDescription := []; keyword := [];
                durationInSeconds := 3; backgroundColor := [];
                audioUrl := Some [98; 108; 111; 98]%N;
                phoneticDialogue := None;
                dataOverlay := Vocab.emptyOverlay |}]) 1 = Some p
    /\ nth_error vs 1 = Some v
    /\ Timeline.from v = Timeline.startFrame p
    /\ Timeline.seqDurationInFrames v = Timeline.durationInFrames p
    /\ (exists a, nth_error au 1 = Some (Some a)
                  /\ Timeline.from a = Timeline.from v
                  /\ Timeline.seqDurationInFrames a
                     = Timeline.seqDurationInFrames v)
    /\ Timeline.timeline
         [Vocab.sceneOfDuration 5;
          {| dialogue := []; visualDescription := []; keyword := [];
             durationInSeconds := 3; backgroundColor := [];
             audioUrl := Some [98; 108; 111; 98]%N; phoneticDialogue := None;
             dataOverlay := Vocab.emptyOverlay |}]
       = Timeline.timeline
           (map Vocab.withoutAudio
              [Vocab.sceneOfDuration 5;
               {| dialogue := []; visualDescription := []; keyword := [];
                  durationInSeconds := 3; backgroundColor := [];
                  audioUrl := Some [98; 108; 111; 98]%N;
                  phoneticDialogue := None;
                  dataOverlay := Vocab.emptyOverlay |}]).
Proof.
  exact (tracks_frame_aligned
           [Vocab.sceneOfDuration 5;
            {| dialogue := []; visualDescription := []; keyword := [];
               durationInSeconds := 3; backgroundColor := [];
               audioUrl := Some [98; 108; 111; 98]%N; phoneticDialogue := None;
               dataOverlay := Vocab.emptyOverlay |}]
           1%nat _ eq_refl).
Defined.

(** ** Strings *)

Section StringFacts.

Import Vocab.

Lemma takeWhile_dropWhile f s : takeWhile f s ++ dropWhile f s = s.
Proof.
  induction s as [|c s IH]; simpl; [reflexivity|].
  destruct (f c); simpl; [now rewrite IH | reflexivity].
Qed.

Lemma takeWhile_all f s : Forall (fun c => f c = true) (takeWhile f s).
Proof.
  induction s as [|c s IH]; simpl; [constructor|].
  destruct (f c) eqn:E; constructor; assumption.
Qed.

Lemma firstn_takeWhile f s :
  firstn (length (takeWhile f s)) s = takeWhile f s.
Proof.
  induction s as [|c s IH]; simpl; [reflexivity|].
  destruct (f c); simpl; [now rewrite IH | reflexivity].
Qed.

Lemma skipn_takeWhile f s :
  skipn (length (takeWhile f s)) s = dropWhile f s.
Proof.
  induction s as [|c s IH]; simpl; [reflexivity|].
  destruct (f c); simpl; [now rewrite IH | reflexivity].
Qed.

Lemma dropWhile_length f s : (length (dropWhile f s) <= length s)%nat.
Proof.
  induction s as [|c s IH]; simpl; [lia|].
  destruct (f c); simpl; lia.
Qed.

Lemma dropWhile_all f s :
  Forall (fun c => f c = true) s -> dropWhile f s = [].
Proof.
  induction 1 as [|c s Hc _ IH]; simpl; [reflexivity|]. now rewrite Hc.
Qed.

(** [trim] removes a run of white space at either end, nothing else. *)
Lemma trim_decompose s :
  exists lead trail,
    s = lead ++ trim s ++ trail /\ all_space lead /\ all_space trail.
Proof.
  unfold trim, trimEnd, trimStart.
  exists (takeWhile is_space s).
  exists (rev (takeWhile is_space (rev (dropWhile is_space s)))).
  split; [|split].
  - rewrite <- rev_app_distr, takeWhile_dropWhile, rev_involutive.
    now rewrite takeWhile_dropWhile.
  - apply takeWhile_all.
  - apply Forall_rev, takeWhile_all.
Qed.

Lemma trim_all_space s : all_space s -> trim s = [].
Proof.
  intro H. unfold trim, trimStart. now rewrite (dropWhile_all _ _ H).
Qed.

Lemma len_cons_pos c (s : jsstring) : (0 <? len (c :: s)) = true.
Proof.
  apply Z.ltb_lt. unfold len. simpl length. lia.
Qed.

Lemma len_app (s t : jsstring) : len (s ++ t) = len s + len t.
Proof.
  unfold len. rewrite length_app. lia.
Qed.

Lemma concat_filter_nonempty (l : list jsstring) :
  concat (filter (fun s => 0 <? len s) l) = concat l.
Proof.
  induction l as [|s l IH]; [reflexivity|].
  cbn [filter]. destruct s as [|c s].
  - exact IH.
  - rewrite len_cons_pos. cbn [concat]. now rewrite IH.
Qed.

Lemma filter_nonempty_all (l : list jsstring) :
  all_nonempty (filter (fun s => 0 <? len s) l).
Proof.
  induction l as [|s l IH]; [constructor|].
  cbn [filter]. destruct s as [|c s].
  - exact IH.
  - rewrite len_cons_pos. constructor; [discriminate | exact IH].
Qed.

End StringFacts.

(** ** Leaving out white space *)

Section Erase.

Import Vocab.

Lemma erase_flag P b b' s r :
  (b = true -> b' = true) -> erase P b s r -> erase P b' s r.
Proof.
  intros Hb H. destruct H.
  - constructor.
  - now constructor.
  - rewrite (Hb eq_refl). now constructor.
Qed.

Lemma erase_refl P b s : erase P b s s.
Proof.
  revert b. induction s; intro b; constructor. apply IHs.
Qed.

Lemma erase_class (P P' : char -> bool) :
  (forall c, P c = true -> P' c = true) ->
  forall b s r, erase P b s r -> erase P' b s r.
Proof.
  intros HP b s r H. induction H.
  - constructor.
  - constructor. eapply erase_flag; [|eassumption]. apply HP.
  - now constructor.
Qed.

Lemma erase_app P b s1 r1 s2 r2 :
  erase P b s1 r1 -> erase P false s2 r2 ->
  erase P b (s1 ++ s2) (r1 ++ r2).
Proof.
  intros H1 H2. induction H1; simpl.
  - eapply erase_flag; [|eassumption]. discriminate.
  - now constructor.
  - now constructor.
Qed.

(** Leaving out a run of white space after a boundary. *)
Lemma erase_skip P ws s r :
  all_space ws -> erase P true s r -> erase P true (ws ++ s) r.
Proof.
  induction 1 as [|c ws Hc _ IH]; simpl; intro Hs; [assumption|].
  constructor; auto.
Qed.

Lemma erase_trans P s m :
  forall b, erase P b s m ->
  forall b' r, erase P b' m r -> erase P (b || b') s r.
Proof.
  induction 1 as [b | b c s m _ IH | c s m Hc _ IH]; intros b' r H2.
  - inversion H2; subst. constructor.
  - inversion H2 as [| ? ? ? r' Hk | ? ? ? Hsp Hd]; subst.
    + constructor. specialize (IH _ _ Hk).
      now rewrite orb_diag in IH.
    + rewrite orb_true_r. constructor; [assumption|].
      specialize (IH _ _ Hd). now rewrite orb_true_r in IH.
  - simpl. constructor; [assumption|]. exact (IH _ _ H2).
Qed.

End Erase.

(** ** The split on a lookbehind *)

Section Split.

Import Vocab.

Variable P : char -> bool.

(** With an iteration budget above twice the remaining input the loop
    ends; its pieces, put together, are the pending piece followed by the
    remaining input with white space left out after code units of the
    class only. *)
Lemma split_loop_erase :
  forall fuel prev (cur rest : jsstring),
    (2 * length rest + (if nonempty cur then 1 else 0) < fuel)%nat ->
    exists pieces tail,
      split_loop fuel P prev cur rest = Some pieces
      /\ concat pieces = cur ++ tail
      /\ erase P (after P prev) rest tail.
Proof.
  induction fuel as [|fuel IH]; intros prev cur rest Hfuel; [lia|].
  destruct rest as [|c rest'].
  - exists [cur], []. simpl. repeat split; constructor.
  - assert (Hadv : exists pieces tail,
               split_loop fuel P (Some c) (cur ++ [c]) rest' = Some pieces
               /\ concat pieces = cur ++ tail
               /\ erase P (after P prev) (c :: rest') tail).
    { destruct (IH (Some c) (cur ++ [c]) rest')
        as (pieces & tail & H1 & H2 & H3).
      { simpl length in Hfuel.
        destruct (nonempty (cur ++ [c])), (nonempty cur); lia. }
      exists pieces, (c :: tail). split; [exact H1|]. split.
      - rewrite H2, <- app_assoc. reflexivity.
      - constructor. exact H3. }
    cbn [split_loop]. unfold lookbehind_ws.
    destruct prev as [pc|]; [|exact Hadv].
    destruct (P pc) eqn:EP; [|exact Hadv].
    set (n := length (takeWhile is_space (c :: rest'))).
    destruct (length cur + n =? 0)%nat eqn:Eempty; [exact Hadv|].
    destruct (IH (prev_after (Some pc) (firstn n (c :: rest'))) []
                 (skipn n (c :: rest'))) as (pieces & tail & H1 & H2 & H3).
    { subst n. rewrite skipn_takeWhile.
      apply Nat.eqb_neq in Eempty.
      assert (length (takeWhile is_space (c :: rest'))
              + length (dropWhile is_space (c :: rest'))
              = length (c :: rest'))%nat
        by (rewrite <- length_app, takeWhile_dropWhile; reflexivity).
      cbn [nonempty].
      destruct cur; cbn [nonempty length] in *; lia. }
    rewrite H1. exists (cur :: pieces), tail.
    split; [reflexivity|]. split.
    + cbn [concat]. now rewrite H2.
    + simpl after. rewrite EP.
      rewrite <- (takeWhile_dropWhile is_space (c :: rest')).
      apply erase_skip; [apply takeWhile_all|].
      subst n. rewrite skipn_takeWhile in H3.
      eapply erase_flag; [|exact H3]. reflexivity.
Qed.

(** [split] never runs out of budget. *)
Lemma split_terminates (s : jsstring) :
  exists pieces, split_loop (split_fuel s) P None [] s = Some pieces.
Proof.
  destruct (split_loop_erase (split_fuel s) None [] s) as (pieces & _ & H & _).
  - unfold split_fuel. cbn [nonempty]. lia.
  - now exists pieces.
Qed.

(** [split] only leaves out white space that follows a code unit of the
    class. *)
Lemma split_erase (s : jsstring) : erase P false s (concat (split P s)).
Proof.
  destruct s as [|c s']; [simpl; constructor|].
  unfold split.
  destruct (split_loop_erase (split_fuel (c :: s')) None [] (c :: s'))
    as (pieces & tail & H1 & H2 & H3).
  { unfold split_fuel. cbn [nonempty]. lia. }
  rewrite H1, H2. exact H3.
Qed.

End Split.

(** ** The chunks of a dialogue *)

Section Chunking.

Import Vocab Subtitle.

Lemma all_nonempty_snoc l (t : jsstring) :
  all_nonempty l -> t <> [] -> all_nonempty (l ++ [t]).
Proof.
  intros Hl Ht. apply Forall_app. split; [exact Hl|].
  constructor; [exact Ht | constructor].
Qed.

Lemma concat_snoc (l : list jsstring) t : concat (l ++ [t]) = concat l ++ t.
Proof.
  rewrite concat_app. simpl. now rewrite app_nil_r.
Qed.

(** Flushing the buffer into the output when it is not empty. *)
Lemma flush_concat (chunks : list jsstring) (cur : jsstring) :
  concat (if nonempty cur then chunks ++ [cur] else chunks)
  = concat chunks ++ cur.
Proof.
  destruct cur; simpl nonempty; cbv iota.
  - now rewrite app_nil_r.
  - apply concat_snoc.
Qed.

Lemma flush_nonempty (chunks : list jsstring) (cur : jsstring) :
  all_nonempty chunks ->
  all_nonempty (if nonempty cur then chunks ++ [cur] else chunks).
Proof.
  intro H. destruct cur; simpl nonempty; cbv iota; [exact H|].
  apply all_nonempty_snoc; [exact H | discriminate].
Qed.

(** The greedy accumulation keeps every code unit of the parts, in order,
    between the output and the buffer. *)
Lemma fold_addPart (parts : list jsstring) :
  forall chunks cur,
    concat (fst (fold_left addPart parts (chunks, cur)))
    ++ snd (fold_left addPart parts (chunks, cur))
    = concat chunks ++ cur ++ concat parts
    /\ (all_nonempty chunks ->
        all_nonempty (fst (fold_left addPart parts (chunks, cur)))).
Proof.
  induction parts as [|part parts IH]; intros chunks cur.
  - simpl. rewrite app_nil_r. auto.
  - cbn [fold_left].
    change (addPart (chunks, cur) part)
      with (if 30 <? len (cur ++ part)
            then ((if nonempty cur then chunks ++ [cur] else chunks), part)
            else (chunks, cur ++ part)).
    destruct (30 <? len (cur ++ part)).
    + destruct (IH (if nonempty cur then chunks ++ [cur] else chunks) part)
        as [Hc Hn].
      split.
      * etransitivity; [exact Hc|].
        rewrite flush_concat. cbn [concat]. now rewrite <- !app_assoc.
      * intro H. apply Hn, flush_nonempty, H.
    + destruct (IH chunks (cur ++ part)) as [Hc Hn].
      split; [|exact Hn].
      etransitivity; [exact Hc|].
      cbn [concat]. now rewrite <- !app_assoc.
Qed.

(** One sentence adds its own code units to the output, with white space
    left out after commas only. *)
Lemma addSentence_erase (chunks : list jsstring) (sentence : jsstring) :
  exists r,
    concat (addSentence chunks sentence) = concat chunks ++ r
    /\ erase is_comma false sentence r.
Proof.
  unfold addSentence. destruct (len sentence <? 25).
  - exists sentence. split; [apply concat_snoc | apply erase_refl].
  - exists (concat (split is_comma sentence)).
    split; [|apply split_erase].
    destruct (fold_addPart (split is_comma sentence) chunks []) as [Hc _].
    match goal with
    | |- context [match ?st with pair _ _ => _ end] =>
        destruct st as [chunks' cur']
    end.
    rewrite flush_concat. exact Hc.
Qed.

Lemma addSentence_nonempty (chunks : list jsstring) (sentence : jsstring) :
  all_nonempty chunks -> sentence <> [] ->
  all_nonempty (addSentence chunks sentence).
Proof.
  intros Hc Hs. unfold addSentence. destruct (len sentence <? 25).
  - now apply all_nonempty_snoc.
  - destruct (fold_addPart (split is_comma sentence) chunks []) as [_ Hn].
    match goal with
    | |- context [match ?st with pair _ _ => _ end] =>
        destruct st as [chunks' cur']
    end.
    apply flush_nonempty, Hn, Hc.
Qed.

Lemma fold_addSentence_erase (sentences : list jsstring) :
  forall chunks,
  exists r,
    concat (fold_left addSentence sentences chunks) = concat chunks ++ r
    /\ erase is_comma false (concat sentences) r.
Proof.
  induction sentences as [|s rest IH]; intro chunks.
  - exists []. simpl. rewrite app_nil_r. split; [reflexivity | constructor].
  - cbn [fold_left].
    destruct (addSentence_erase chunks s) as (r1 & Hc1 & He1).
    destruct (IH (addSentence chunks s)) as (r2 & Hc2 & He2).
    exists (r1 ++ r2). split.
    + rewrite Hc2, Hc1. now rewrite <- app_assoc.
    + cbn [concat]. now apply erase_app.
Qed.

Lemma fold_addSentence_nonempty (sentences : list jsstring) :
  all_nonempty sentences ->
  forall chunks,
    all_nonempty chunks ->
    all_nonempty (fold_left addSentence sentences chunks).
Proof.
  induction 1 as [|s rest Hs _ IH]; intros chunks Hc; [exact Hc|].
  cbn [fold_left]. apply IH. now apply addSentence_nonempty.
Qed.

End Chunking.

Section DialogueClaims.

Import Vocab Subtitle.

Lemma is_boundary_sentence_end c :
  is_sentence_end c = true -> is_boundary c = true.
Proof.
  unfold is_boundary. now intros ->.
Qed.

Lemma is_boundary_comma c : is_comma c = true -> is_boundary c = true.
Proof.
  unfold is_boundary. intros ->. apply orb_true_r.
Qed.

Lemma strip_prefix_Some (pre : jsstring) :
  forall s r, strip_prefix pre s = Some r -> s = pre ++ r.
Proof.
  induction pre as [|a pre IH]; intros s r H.
  - destruct s; simpl in H; now injection H as <-.
  - destruct s as [|b s]; [discriminate|]. simpl in H.
    destruct (N.eqb_spec a b) as [<-|]; [|discriminate].
    simpl. f_equal. now apply IH.
Qed.

Lemma strip_prefix_app (pre r : jsstring) :
  strip_prefix pre (pre ++ r) = Some r.
Proof.
  induction pre as [|a pre IH]; [destruct r; reflexivity|].
  simpl. now rewrite N.eqb_refl.
Qed.

Lemma match_speaker_Some name text rest :
  match_speaker name text = Some rest ->
  exists colon, is_colon colon = true /\ text = name ++ colon :: rest.
Proof.
  unfold match_speaker. intro H.
  destruct (strip_prefix name text) as [[|c r]|] eqn:E; try discriminate.
  destruct (is_colon c) eqn:Ec; [|discriminate].
  injection H as <-. exists c. split; [exact Ec|].
  now apply strip_prefix_Some.
Qed.

Lemma match_speaker_app name colon rest :
  is_colon colon = true ->
  match_speaker name (name ++ colon :: rest) = Some rest.
Proof.
  intro Hc. unfold match_speaker. now rewrite strip_prefix_app, Hc.
Qed.

(** What the replacement of the prefix pattern returns. *)
Lemma removeSpeakerPrefix_spec (text : jsstring) :
  speakerStripped text (removeSpeakerPrefix text).
Proof.
  unfold removeSpeakerPrefix.
  destruct (match_speaker speakerJenba text) as [rest|] eqn:EJ.
  { left. destruct (match_speaker_Some _ _ _ EJ) as (colon & Hc & ->).
    exists speakerJenba, colon.
    split; [now left|]. split; [exact Hc | reflexivity]. }
  destruct (match_speaker speakerAiba text) as [rest|] eqn:EA.
  { left. destruct (match_speaker_Some _ _ _ EA) as (colon & Hc & ->).
    exists speakerAiba, colon.
    split; [now right|]. split; [exact Hc | reflexivity]. }
  right. split; [|reflexivity].
  intros rest (name & colon & [-> | ->] & Hc & ->).
  - rewrite (match_speaker_app _ _ _ Hc) in EJ. discriminate.
  - rewrite (match_speaker_app _ _ _ Hc) in EA. discriminate.
Qed.

(** A dialogue has one text without its speaker prefix. *)
Lemma speakerStripped_unique (text a b : jsstring) :
  speakerStripped text a -> speakerStripped text b -> a = b.
Proof.
  intros [Ha | [Hna ->]] [Hb | [Hnb ->]].
  - destruct Ha as (n1 & c1 & [-> | ->] & _ & ->);
      destruct Hb as (n2 & c2 & [-> | ->] & _ & E);
      simpl in E; congruence.
  - exfalso. exact (Hnb _ Ha).
  - exfalso. exact (Hna _ Hb).
  - reflexivity.
Qed.

(** C4.  The chunk texts, put together in order, are the dialogue without
    its speaker prefix (what follows the name and the colon where the
    dialogue starts with them, the dialogue itself where it does not),
    with white space left out at the two ends and after sentence ends and
    commas, and with every other code unit kept once and in place. *)
Theorem chunks_reassemble (dialogue : jsstring) :
  exists stripped lead body trail,
    speakerStripped dialogue stripped
    /\ stripped = lead ++ body ++ trail
    /\ all_space lead
    /\ all_space trail
    /\ erase is_boundary false body
             (concat (splitDialogueIntoChunks dialogue)).
Proof.
  destruct (trim_decompose (removeSpeakerPrefix dialogue))
    as (lead & trail & Heq & Hlead & Htrail).
  exists (removeSpeakerPrefix dialogue), lead,
         (trim (removeSpeakerPrefix dialogue)), trail.
  split; [apply removeSpeakerPrefix_spec|].
  repeat (split; [assumption|]).
  unfold splitDialogueIntoChunks. cbv zeta.
  set (cleanText := trim (removeSpeakerPrefix dialogue)).
  set (sentences := filter _ _).
  destruct (fold_addSentence_erase sentences []) as (r & Hr & Her).
  rewrite Hr. cbn [concat app].
  subst sentences. rewrite concat_filter_nonempty in Her.
  change false with (false || false)%bool.
  apply erase_trans with (m := concat (split is_sentence_end cleanText)).
  - apply (erase_class is_sentence_end); [apply is_boundary_sentence_end|].
    apply split_erase.
  - apply (erase_class is_comma); [apply is_boundary_comma | exact Her].
Qed.

Lemma removeSpeakerPrefix_tag name colon ws :
  name = speakerJenba \/ name = speakerAiba ->
  is_colon colon = true ->
  removeSpeakerPrefix (name ++ colon :: ws) = ws.
Proof.
  intros [-> | ->] Hcolon;
    unfold removeSpeakerPrefix, match_speaker; simpl; now rewrite Hcolon.
Qed.

(** C9, as the code has it.  A dialogue that is empty, or is a speaker
    name at its very start, the colon and then white space only, gives no
    chunk; and no chunk of any dialogue is the empty string. *)
Theorem chunks_of_tag_only (dialogue : jsstring) :
  (tagOnly dialogue -> splitDialogueIntoChunks dialogue = [])
  /\ all_nonempty (splitDialogueIntoChunks dialogue).
Proof.
  split.
  - intros [-> | (name & colon & ws & Hname & Hcolon & Hws & ->)].
    + reflexivity.
    + unfold splitDialogueIntoChunks.
      rewrite (removeSpeakerPrefix_tag _ _ _ Hname Hcolon).
      rewrite (trim_all_space _ Hws). reflexivity.
  - unfold splitDialogueIntoChunks. cbv zeta.
    apply fold_addSentence_nonempty; [apply filter_nonempty_all|].
    constructor.
Qed.

End DialogueClaims.

(** C9 on the dialogue that is the first speaker name, a full-width colon
    and two spaces. *)
Lemma chunks_of_tag_only_witness :
  Subtitle.splitDialogueIntoChunks
    [12376; 12359; 12435; 12400; 65306; 32; 12288]%N = []
  /\ Vocab.all_nonempty
       (Subtitle.splitDialogueIntoChunks
          [12376; 12359; 12435; 12400; 65306; 32; 12288]%N).
Proof.
  destruct (chunks_of_tag_only
              [12376; 12359; 12435; 12400; 65306; 32; 12288]%N) as [H1 H2].
  split; [|exact H2].
  apply H1. right.
  exists Subtitle.speakerJenba, 65306%N, [32; 12288]%N.
  split; [now left|]. split; [reflexivity|].
  split; [|reflexivity].
  repeat constructor.
Defined.

(** C9 as stated fails where white space comes before the speaker name:
    the prefix pattern is anchored at the start of the dialogue, so the
    name and its colon stay and are the one chunk of the dialogue; here on
    a space, the first speaker name and a colon, and on the same followed
    by a space. *)
Lemma spaced_tag_is_a_chunk :
  Subtitle.splitDialogueIntoChunks
    (32 :: Subtitle.speakerJenba ++ [58])%N
  = [(Subtitle.speakerJenba ++ [58])%N]
  /\ Subtitle.splitDialogueIntoChunks
       (32 :: Subtitle.speakerJenba ++ [58; 32])%N
     = [(Subtitle.speakerJenba ++ [58])%N]
  /\ Vocab.all_space [32%N].
Proof.
  repeat split; try (vm_compute; reflexivity).
  repeat constructor.
Qed.

(** ** The timing of the chunks *)

Section Layout.

Import Vocab Subtitle.

Variable tc : Z.
Variable avail : Q.



(** Each chunk ends its own duration after its start. *)
Lemma layout_duration (texts : list jsstring) :
  forall cur c,
    In c (layout tc avail cur texts) ->
    endFrame c = (startFrame c + duration tc avail (text c))%Q.
Proof.
  induction texts as [|t rest IH]; intros cur c Hc; simpl in Hc.
  - contradiction.
  - destruct Hc as [<- | Hc]; [reflexivity|]. exact (IH _ _ Hc).
Qed.


Lemma denominator_pos : (0 < inject_Z (Z.max tc 1))%Q.
Proof.
  unfold Qlt. simpl. lia.
Qed.

Lemma weight_pos t : (0 < inject_Z (weight t))%Q.
Proof.
  unfold Qlt, weight. simpl. lia.
Qed.


(** The end of the last chunk: the cursor moved on by the share of the
    summed weights in the character count. *)
Lemma layout_last_end (texts : list jsstring) :
  forall cur c d,
    texts <> [] ->
    last (layout tc avail cur texts) d = c ->
    (endFrame c
     == cur + inject_Z (sumWeight texts) / inject_Z (Z.max tc 1) * avail)%Q.
Proof.
  pose proof denominator_pos as Hden.
  assert (Hne : ~ (inject_Z (Z.max tc 1) == 0)%Q)
    by (intro E; rewrite E in Hden; discriminate).
  induction texts as [|t rest IH]; intros cur c d Hnil Hlast; [congruence|].
  destruct rest as [|t' rest'].
  - simpl in Hlast. subst c. simpl. unfold duration.
    rewrite Z.add_0_r. reflexivity.
  - change (last (layout tc avail (cur + duration tc avail t) (t' :: rest')) d
            = c) in Hlast.
    rewrite (IH _ _ _ ltac:(discriminate) Hlast).
    change (sumWeight (t :: t' :: rest'))
      with (weight t + sumWeight (t' :: rest'))%Z.
    rewrite inject_Z_plus. unfold duration. field. exact Hne.
Qed.

End Layout.

Section TimingClaims.

Import Vocab Subtitle.

Lemma totalChars_sumLen (texts : list jsstring) :
  totalChars texts = sumLen texts.
Proof.
  unfold totalChars. induction texts as [|t rest IH]; [reflexivity|].
  cbn [concat sumLen fold_right]. rewrite len_app.
  fold (sumLen rest). now rewrite IH.
Qed.

Lemma sumLen_nonneg (texts : list jsstring) : 0 <= sumLen texts.
Proof.
  induction texts as [|t rest IH]; [reflexivity|].
  cbn [sumLen fold_right]. fold (sumLen rest). unfold len. lia.
Qed.




(** C5, on the code.  A 5 s scene at 30 frames per second whose dialogue
    is one chunk of three code units: 135 frames are left after the
    buffer, the chunk gets the weight 5 over 3 characters and ends at
    frame 225, after the 150 frames of the scene. *)
Theorem short_chunk_overruns :
  exists c,
    chunks hai 5 30 = [c]
    /\ text c = hai
    /\ weight (text c) = 5 /\ totalChars [text c] = 3
    /\ (totalDurationFrames 5 30 == 135)%Q
    /\ (endFrame c == 225)%Q
    /\ (totalDurationFrames 5 30 < endFrame c)%Q.
Proof.
  eexists. split; [vm_compute; reflexivity|].
  repeat split; reflexivity.
Qed.

(** Four such chunks in a 5 s scene: the last one starts at frame 168.75,
    after the 150 frames of the scene, so no frame ever shows it. *)
Lemma short_chunks_hide_last :
  exists c,
    nth_error (chunks (hai ++ hai ++ hai ++ hai) 5 30) 3 = Some c
    /\ text c = hai
    /\ (startFrame c == 675 # 4)%Q
    /\ (5 * inject_Z 30 < startFrame c)%Q.
Proof.
  eexists. split; [vm_compute; reflexivity|].
  repeat split; reflexivity.
Qed.

(** Where every chunk is at least as long as the minimum weight, the last
    chunk ends on the frames left after the buffer. *)
Lemma long_chunks_fill (dialogue : jsstring) (d : Q) (fps : Z) (c0 : Chunk) :
  splitDialogueIntoChunks dialogue <> [] ->
  Forall (fun t => 5 <= len t) (splitDialogueIntoChunks dialogue) ->
  (endFrame (last (chunks dialogue d fps) c0)
   == totalDurationFrames d fps)%Q.
Proof.
  intros Hne Hlong. unfold chunks. cbv zeta.
  set (texts := splitDialogueIntoChunks dialogue) in *.
  rewrite (layout_last_end _ _ texts 0%Q _ c0 Hne eq_refl).
  assert (Hw : sumWeight texts = sumLen texts).
  { clear Hne. induction Hlong as [|t rest Ht _ IH]; [reflexivity|].
    cbn [sumWeight sumLen fold_right].
    fold (sumWeight rest). fold (sumLen rest).
    rewrite IH. unfold weight. cbv beta in Ht. lia. }
  assert (Hpos : 1 <= sumLen texts).
  { destruct Hlong as [|t rest Ht _]; [congruence|].
    cbv beta in Ht. cbn [sumLen fold_right]. fold (sumLen rest).
    pose proof (sumLen_nonneg rest). lia. }
  rewrite Hw, totalChars_sumLen, Z.max_l by lia.
  field. intro E. unfold Qeq in E. simpl in E. lia.
Qed.


End TimingClaims.




(** * Further properties *)

(** ** The active subtitle *)

Section ActiveChunk.

Import Vocab Subtitle Playback.

Variable tc : Z.
Variable avail : Q.

Lemma isActive_spec (f : Q) (c : Chunk) :
  isActive f c = true <-> (startFrame c <= f /\ f < endFrame c)%Q.
Proof.
  unfold isActive. rewrite andb_true_iff, negb_true_iff, Qle_bool_iff.
  split; intros [H1 H2]; (split; [exact H1|]).
  - apply Qnot_le_lt. intro H. apply Qle_bool_iff in H. congruence.
  - destruct (Qle_bool (endFrame c) f) eqn:E; [|reflexivity].
    apply Qle_bool_iff in E. lra.
Qed.

Lemma duration_nonneg t : (0 <= avail)%Q -> (0 <= duration tc avail t)%Q.
Proof.
  intro Ha. unfold duration.
  apply Qmult_le_0_compat; [|exact Ha].
  apply Qlt_le_weak, Qlt_shift_div_l; [apply denominator_pos|].
  rewrite Qmult_0_l. apply weight_pos.
Qed.

Lemma duration_nonpos t : (avail <= 0)%Q -> (duration tc avail t <= 0)%Q.
Proof.
  intro Ha. unfold duration.
  assert (Hw : (0 < inject_Z (weight t) / inject_Z (Z.max tc 1))%Q).
  { apply Qlt_shift_div_l; [apply denominator_pos|].
    rewrite Qmult_0_l. apply weight_pos. }
  assert (H : (0 <= inject_Z (weight t) / inject_Z (Z.max tc 1) * - avail)%Q)
    by (apply Qmult_le_0_compat; lra).
  lra.
Qed.

(** With no frame left after the buffer, no chunk holds any frame. *)
Lemma layout_never_active (texts : list jsstring) f :
  (avail <= 0)%Q ->
  forall cur c, In c (layout tc avail cur texts) -> isActive f c = false.
Proof.
  intros Ha cur c Hc.
  destruct (isActive f c) eqn:E; [|reflexivity].
  apply isActive_spec in E. destruct E as [H1 H2].
  rewrite (layout_duration _ _ _ _ _ Hc) in H2.
  pose proof (duration_nonpos (text c) Ha). lra.
Qed.

(** No chunk starts before the cursor. *)
Lemma layout_start_lower (texts : list jsstring) :
  (0 <= avail)%Q ->
  forall cur c, In c (layout tc avail cur texts) -> (cur <= startFrame c)%Q.
Proof.
  intro Ha. induction texts as [|t rest IH]; intros cur c Hc; simpl in Hc.
  - contradiction.
  - destruct Hc as [<- | Hc]; [simpl; lra|].
    apply IH in Hc. pose proof (duration_nonneg t Ha). lra.
Qed.

(** A chunk ends before every later chunk starts. *)
Lemma layout_order (texts : list jsstring) :
  (0 <= avail)%Q ->
  forall cur i j ci cj,
    (i < j)%nat ->
    nth_error (layout tc avail cur texts) i = Some ci ->
    nth_error (layout tc avail cur texts) j = Some cj ->
    (endFrame ci <= startFrame cj)%Q.
Proof.
  intro Ha. induction texts as [|t rest IH]; intros cur i j ci cj Hij Hi Hj.
  - destruct i; discriminate.
  - destruct j as [|j]; [lia|]. destruct i as [|i]; simpl in Hi, Hj.
    + injection Hi as <-. simpl.
      apply nth_error_In in Hj. exact (layout_start_lower _ Ha _ _ Hj).
    + eapply (IH _ i j); eauto. lia.
Qed.

Lemma last_cons_cons {A : Type} (x y : A) l d :
  last (x :: y :: l) d = last (y :: l) d.
Proof.
  reflexivity.
Qed.

Lemma last_In {A : Type} (l : list A) d : l <> [] -> In (last l d) l.
Proof.
  induction l as [|x [|y l] IH]; intro H; [congruence | now left |].
  rewrite last_cons_cons. right. apply IH. discriminate.
Qed.

Lemma last_cons_ne {A : Type} (x : A) l d :
  l <> [] -> last (x :: l) d = last l d.
Proof.
  destruct l; [congruence | reflexivity].
Qed.

Lemma layout_nonempty (texts : list jsstring) cur :
  texts <> [] -> layout tc avail cur texts <> [].
Proof.
  destruct texts; [congruence | discriminate].
Qed.

(** The last chunk does not end before the cursor. *)
Lemma layout_last_lower (texts : list jsstring) d0 cur :
  (0 <= avail)%Q ->
  texts <> [] ->
  (cur <= endFrame (last (layout tc avail cur texts) d0))%Q.
Proof.
  intros Ha Hne.
  pose proof (last_In _ d0 (layout_nonempty texts cur Hne)) as Hl.
  pose proof (layout_start_lower _ Ha _ _ Hl) as H1.
  pose proof (layout_duration _ _ _ _ _ Hl) as H2.
  pose proof (duration_nonneg (text (last (layout tc avail cur texts) d0)) Ha).
  rewrite H2. lra.
Qed.

(** No chunk ends after the last one. *)
Lemma layout_end_upper (texts : list jsstring) d0 :
  (0 <= avail)%Q ->
  forall cur c,
    In c (layout tc avail cur texts) ->
    (endFrame c <= endFrame (last (layout tc avail cur texts) d0))%Q.
Proof.
  intro Ha. induction texts as [|t rest IH]; intros cur c Hc.
  - contradiction.
  - cbn [layout] in *. destruct Hc as [<- | Hc].
    + destruct rest as [|t' rest']; [simpl; lra|].
      rewrite last_cons_ne by (apply layout_nonempty; discriminate).
      cbn [endFrame]. apply layout_last_lower; [exact Ha | discriminate].
    + rewrite last_cons_ne by (intro E; rewrite E in Hc; contradiction).
      apply IH, Hc.
Qed.

(** A frame between the cursor and the end of the last chunk is in some
    chunk, and [find] returns one. *)
Lemma layout_covers (texts : list jsstring) f d0 :
  forall cur,
    texts <> [] ->
    (cur <= f)%Q ->
    (f < endFrame (last (layout tc avail cur texts) d0))%Q ->
    exists c, find (isActive f) (layout tc avail cur texts) = Some c.
Proof.
  induction texts as [|t rest IH]; intros cur Hne Hlo Hhi; [congruence|].
  cbn [layout find].
  destruct (isActive f _) eqn:E; [eexists; reflexivity|].
  destruct rest as [|t' rest'].
  - exfalso. simpl in Hhi.
    assert (isActive f {| text := t; startFrame := cur;
                          endFrame := cur + duration tc avail t |} = true)
      by (apply isActive_spec; simpl; split; assumption).
    congruence.
  - apply IH; [discriminate | |].
    + apply Qnot_lt_le. intro Hlt.
      assert (isActive f {| text := t; startFrame := cur;
                            endFrame := cur + duration tc avail t |} = true)
        by (apply isActive_spec; simpl; split; assumption).
      congruence.
    + exact Hhi.
Qed.

End ActiveChunk.

Section ActiveChunkTheorems.

Import Vocab Subtitle Playback.

Lemma find_nth_error {A : Type} (f : A -> bool) (l : list A) x :
  find f l = Some x -> exists i, nth_error l i = Some x /\ f x = true.
Proof.
  induction l as [|y l IH]; simpl; [discriminate|].
  destruct (f y) eqn:E.
  - intros [= ->]. exists 0%nat. now split.
  - intro H. destruct (IH H) as (i & Hi & Hf). exists (S i). now split.
Qed.

(** At most one chunk holds a given frame. *)
Lemma active_index_unique dialogue d fps f i j ci cj :
  nth_error (chunks dialogue d fps) i = Some ci ->
  nth_error (chunks dialogue d fps) j = Some cj ->
  isActive f ci = true -> isActive f cj = true ->
  i = j.
Proof.
  unfold chunks. cbv zeta.
  set (texts := splitDialogueIntoChunks dialogue).
  set (tc := totalChars texts). set (avail := totalDurationFrames d fps).
  intros Hi Hj Ai Aj.
  destruct (Qlt_le_dec 0 avail) as [Hpos | Hneg].
  - apply isActive_spec in Ai, Aj.
    destruct (Nat.lt_trichotomy i j) as [Hlt | [Heq | Hgt]]; [|exact Heq|];
      exfalso.
    + pose proof (layout_order tc avail texts (Qlt_le_weak _ _ Hpos)
                    _ _ _ _ _ Hlt Hi Hj). lra.
    + pose proof (layout_order tc avail texts (Qlt_le_weak _ _ Hpos)
                    _ _ _ _ _ Hgt Hj Hi). lra.
  - apply nth_error_In in Hi.
    rewrite (layout_never_active tc avail texts f Hneg _ _ Hi) in Ai.
    discriminate.
Qed.

(** X1.  A scene that is not longer than the end buffer
    ([durationInSeconds * fps <= 15]) shows no subtitle at any frame. *)
Theorem short_scene_no_subtitle (dialogue : jsstring) (d : Q) (fps : Z)
        (frame : Q) (Hshort : (d * inject_Z fps <= 15)%Q) :
  activeChunk (chunks dialogue d fps) frame = None.
Proof.
  unfold activeChunk.
  destruct (find _ _) as [c|] eqn:E; [|reflexivity].
  apply find_some in E. destruct E as [Hin Hact].
  unfold chunks in Hin. cbv zeta in Hin.
  assert (Hle : (totalDurationFrames d fps <= 0)%Q)
    by (unfold totalDurationFrames; lra).
  rewrite (layout_never_active _ _ _ frame Hle _ _ Hin) in Hact.
  discriminate.
Qed.

(** X2.  The subtitle found for a frame is a chunk of the scene whose
    interval [startFrame, endFrame) holds the frame, and it is the only
    such chunk: the intervals of two chunks never share a frame. *)
Theorem active_chunk_unique (dialogue : jsstring) (d : Q) (fps : Z)
        (frame : Q) (c : Chunk)
        (Hfound : activeChunk (chunks dialogue d fps) frame = Some c) :
  In c (chunks dialogue d fps)
  /\ (startFrame c <= frame /\ frame < endFrame c)%Q
  /\ forall k c', nth_error (chunks dialogue d fps) k = Some c' ->
                  (startFrame c' <= frame /\ frame < endFrame c')%Q ->
                  c' = c.
Proof.
  unfold activeChunk in Hfound.
  pose proof (find_some _ _ Hfound) as [Hin Hact].
  split; [exact Hin|]. split; [now apply isActive_spec|].
  intros k c' Hk Hc'. apply isActive_spec in Hc'.
  destruct (find_nth_error _ _ _ Hfound) as (i & Hi & _).
  pose proof (active_index_unique _ _ _ _ _ _ _ _ Hk Hi Hc' Hact) as ->.
  congruence.
Qed.

(** X3.  In a scene with chunks, a subtitle is shown exactly at the frames
    from 0 up to, and not including, the end frame of the last chunk. *)
Theorem active_chunk_iff (dialogue : jsstring) (d : Q) (fps : Z)
        (frame : Q) (c0 : Chunk)
        (Hne : chunks dialogue d fps <> []) :
  (exists c, activeChunk (chunks dialogue d fps) frame = Some c)
  <-> (0 <= frame /\ frame < endFrame (last (chunks dialogue d fps) c0))%Q.
Proof.
  unfold activeChunk, chunks in *. cbv zeta in *.
  set (texts := splitDialogueIntoChunks dialogue) in *.
  set (tc := totalChars texts) in *.
  set (avail := totalDurationFrames d fps) in *.
  assert (Htexts : texts <> [])
    by (intro E; rewrite E in Hne; now apply Hne).
  split.
  - intros (c & Hc).
    pose proof (find_some _ _ Hc) as [Hin Hact].
    destruct (Qlt_le_dec 0 avail) as [Hpos | Hneg].
    + apply Qlt_le_weak in Hpos. apply isActive_spec in Hact.
      pose proof (layout_start_lower tc avail texts Hpos _ _ Hin).
      pose proof (layout_end_upper tc avail texts c0 Hpos _ _ Hin).
      split; lra.
    + rewrite (layout_never_active tc avail texts frame Hneg _ _ Hin) in Hact.
      discriminate.
  - intros [Hlo Hhi]. now apply (layout_covers tc avail texts frame c0).
Qed.

End ActiveChunkTheorems.

(** X1 on a scene of 0.4 s at 30 frames per second, frame 3. *)
Lemma short_scene_no_subtitle_witness :
  Playback.activeChunk (Subtitle.chunks Vocab.hai (4 # 10) 30) 3 = None.
Proof.
  apply (short_scene_no_subtitle Vocab.hai (4 # 10) 30 3).
  unfold Qle. simpl. lia.
Defined.

(** X2 on the second of two chunks of a 5 s scene, at frame 100. *)
Lemma active_chunk_unique_witness :
  let dialogue :=
    (Vocab.hai ++ [32; 12381; 12358; 12391; 12377; 12397; 12290])%N in
  let c := {| Subtitle.text := [12381; 12358; 12391; 12377; 12397; 12290]%N;
              Subtitle.startFrame := 675 # 9;
              Subtitle.endFrame := 13365 # 81 |} in
  In c (Subtitle.chunks dialogue 5 30)
  /\ (Subtitle.startFrame c <= 100 /\ 100 < Subtitle.endFrame c)%Q
  /\ forall k c', nth_error (Subtitle.chunks dialogue 5 30) k = Some c' ->
                  (Subtitle.startFrame c' <= 100
                   /\ 100 < Subtitle.endFrame c')%Q ->
                  c' = c.
Proof.
  intros dialogue c.
  apply (active_chunk_unique dialogue 5 30 100 c).
  vm_compute. reflexivity.
Defined.

(** X3 on the one chunk of a 5 s scene, at frame 200. *)
Lemma active_chunk_iff_witness :
  (exists c, Playback.activeChunk (Subtitle.chunks Vocab.hai 5 30) 200 = Some c)
  <-> (0 <= 200
       /\ 200 < Subtitle.endFrame
                  (last (Subtitle.chunks Vocab.hai 5 30)
                        {| Subtitle.text := [];
                           Subtitle.startFrame := 0;
                           Subtitle.endFrame := 0 |}))%Q.
Proof.
  apply (active_chunk_iff Vocab.hai 5 30 200).
  vm_compute. discriminate.
Defined.

(** ** The frames of a scene *)

Section SceneFrames.

Import Timeline Vocab.

(** X23.  The frames [Math.ceil] gives a scene, against the ceiling of the
    exact product of its length and the frame rate: for a length that is
    not negative and a product of at most [2^30] frames, the two differ
    by one at most, and they are the same number [n] wherever the exact
    product lies between [n - 1] and [n] and not within [2^-20] of
    either. *)
Theorem sceneFrames_near_ceiling (fps : Z) (scene : Scene)
        (Hfps : 0 < fps < 2 ^ 53)
        (Hd : (0 <= durationInSeconds scene)%Q)
        (Hx : (durationInSeconds scene * inject_Z fps <= 2 ^ 30)%Q) :
  let x := (durationInSeconds scene * inject_Z fps)%Q in
  Qceiling x - 1 <= sceneFrames fps scene <= Qceiling x + 1
  /\ forall n : Z,
      (inject_Z n - 1 + 2 ^ (-20) < x)%Q ->
      (x <= inject_Z n - 2 ^ (-20))%Q ->
      sceneFrames fps scene = n /\ Qceiling x = n.
Proof.
  intro x. unfold sceneFrames.
  destruct (mul_Z_error (durationInSeconds scene) fps Hd ltac:(lia) Hx)
    as [H1 H2].
  fold x in H1, H2.
  set (P := Double.mul (durationInSeconds scene) (inject_Z fps)) in *.
  change (2 ^ (-20))%Q with (1 # 1048576)%Q in *.
  pose proof (Qle_ceiling P) as Hp1. pose proof (Qceiling_lt P) as Hp2.
  pose proof (Qle_ceiling x) as Hx1. pose proof (Qceiling_lt x) as Hx2.
  unfold Z.sub in Hp2, Hx2.
  rewrite inject_Z_plus, inject_Z_opp in Hp2, Hx2.
  change (inject_Z 1) with 1%Q in *.
  clearbody P x.
  split.
  - assert (L1 : (inject_Z (Qceiling x - 2) < inject_Z (Qceiling P))%Q).
    { unfold Z.sub. rewrite inject_Z_plus, inject_Z_opp.
      change (inject_Z 2) with 2%Q. lra. }
    assert (L2 : (inject_Z (Qceiling P) < inject_Z (Qceiling x + 2))%Q).
    { rewrite inject_Z_plus. change (inject_Z 2) with 2%Q. lra. }
    rewrite <- Zlt_Qlt in L1, L2. lia.
  - intros n Hn1 Hn2. split; apply Qceiling_unique; lra.
Qed.

End SceneFrames.

(** X23 on two scenes.  At 8.3 s the exact product with the frame rate is
    the whole number 249 and the scene has 250 frames, one more than the
    ceiling; at 5.25 s the exact product is 157.5, away from the whole
    numbers, and the scene has the 158 frames of the ceiling. *)
Lemma sceneFrames_near_ceiling_witness :
  (Timeline.sceneFrames 30 (Vocab.sceneOfDuration (83 # 10)) = 250
   /\ Qceiling ((83 # 10) * inject_Z 30) = 249
   /\ Qceiling ((83 # 10) * inject_Z 30) - 1
      <= Timeline.sceneFrames 30 (Vocab.sceneOfDuration (83 # 10))
      <= Qceiling ((83 # 10) * inject_Z 30) + 1)
  /\ (Timeline.sceneFrames 30 (Vocab.sceneOfDuration (525 # 100)) = 158
      /\ Qceiling ((525 # 100) * inject_Z 30) = 158).
Proof.
  split.
  - split; [vm_compute; reflexivity|].
    split; [vm_compute; reflexivity|].
    apply (sceneFrames_near_ceiling 30 (Vocab.sceneOfDuration (83 # 10)));
      [lia | vm_compute; discriminate | vm_compute; discriminate].
  - apply (sceneFrames_near_ceiling 30 (Vocab.sceneOfDuration (525 # 100)));
      [lia | vm_compute; discriminate | vm_compute; discriminate
       | vm_compute; reflexivity | vm_compute; discriminate].
Defined.

(** ** The player length and the audio export *)

Section ExportFacts.

Import Timeline Vocab Terms AudioExport.

(** The start of the placement at [i]: the cursor moved on by the steps of
    the scenes before it. *)
Lemma timeline_from_start (l : list Scene) :
  forall cur i p,
    nth_error (timeline_from FPS TRANSITION_DURATION_IN_FRAMES cur l) i
    = Some p ->
    startFrame p = cur + sumSteps (firstn i l).
Proof.
  induction l as [|s rest IH]; intros cur i p Hp.
  - destruct i; discriminate.
  - destruct i as [|i]; simpl in Hp.
    + injection Hp as <-. simpl. lia.
    + apply IH in Hp. rewrite Hp. cbn [firstn sumSteps fold_right].
      fold (sumSteps (firstn i rest)). lia.
Qed.

Lemma sumSteps_long (l : list Scene) :
  Forall (fun a => TRANSITION_DURATION_IN_FRAMES <= sceneFrames FPS a) l ->
  sumSteps l
  = sumFrames FPS l - Z.of_nat (length l) * TRANSITION_DURATION_IN_FRAMES.
Proof.
  induction 1 as [|a rest Ha _ IH]; [reflexivity|].
  cbn [sumSteps sumFrames fold_right length].
  fold (sumSteps rest). fold (sumFrames FPS rest).
  rewrite IH, Nat2Z.inj_succ. lia.
Qed.

Lemma sumFrames_app fps (l1 l2 : list Scene) :
  sumFrames fps (l1 ++ l2) = sumFrames fps l1 + sumFrames fps l2.
Proof.
  induction l1 as [|a l1 IH]; [reflexivity|].
  cbn [app sumFrames fold_right]. fold (sumFrames fps (l1 ++ l2)).
  fold (sumFrames fps l1). rewrite IH. lia.
Qed.

Lemma sumFrames_lower (l : list Scene) :
  Forall (fun a => TRANSITION_DURATION_IN_FRAMES <= sceneFrames FPS a) l ->
  Z.of_nat (length l) * TRANSITION_DURATION_IN_FRAMES <= sumFrames FPS l.
Proof.
  induction 1 as [|a rest Ha _ IH]; [reflexivity|].
  cbn [sumFrames fold_right length]. fold (sumFrames FPS rest).
  rewrite Nat2Z.inj_succ. lia.
Qed.

Lemma exportLoop_clips (l : list Scene) :
  forall buffers cur,
    exportLoop buffers cur l = (buffers ++ clipsOf cur l, cur + sumSteps l).
Proof.
  induction l as [|scene rest IH]; intros buffers cur.
  - simpl. now rewrite app_nil_r, Z.add_0_r.
  - cbn [exportLoop]. cbv zeta. rewrite IH.
    cbn [clipsOf sumSteps fold_right]. fold (sumSteps rest).
    f_equal; [|lia].
    unfold clipOf.
    destruct (audioUrl scene) as [url|]; [|reflexivity].
    destruct (truthy (Some url)); [|reflexivity].
    now rewrite <- app_assoc.
Qed.


End ExportFacts.

Section ExportTheorems.

Import Timeline Vocab Terms AudioExport.

Lemma nth_error_Some_lt {A : Type} (l : list A) i x :
  nth_error l i = Some x -> (i < length l)%nat.
Proof.
  intro H. apply nth_error_Some. congruence.
Qed.

Lemma Forall_firstn {A : Type} (P : A -> Prop) n (l : list A) :
  Forall P l -> Forall P (firstn n l).
Proof.
  intro H. revert n. induction H; intros [|n]; simpl; constructor; auto.
Qed.

Lemma Forall_skipn {A : Type} (P : A -> Prop) n (l : list A) :
  Forall P l -> Forall P (skipn n l).
Proof.
  intro H. revert n. induction H; intros [|n]; simpl; auto.
Qed.

Lemma nth_error_split_at {A : Type} (l : list A) i x :
  nth_error l i = Some x -> l = firstn i l ++ x :: skipn (S i) l.
Proof.
  revert i. induction l as [|y l IH]; intros [|i] H; try discriminate.
  - now injection H as ->.
  - simpl in H. cbn [firstn skipn app]. f_equal. now apply IH.
Qed.

Lemma mapi_from_length {A B : Type} (f : A -> nat -> option B) (l : list A) :
  forall index ys, mapi_from f index l = Some ys -> length ys = length l.
Proof.
  induction l as [|x l IH]; intros index ys H; simpl in H.
  - now injection H as <-.
  - destruct (f x index); [|discriminate].
    destruct (mapi_from f (S index) l) as [ys'|] eqn:E; [|discriminate].
    injection H as <-. simpl. f_equal. exact (IH _ _ E).
Qed.

(** X4.  Where every scene is at least as long as the overlap (15 frames),
    no window of the timeline ends after the length handed to the player,
    and the window of the last scene ends exactly on it. *)
Theorem player_length_covers_windows (v : VideoScript) (i : nat)
        (p : Placement)
        (Hlong : Forall (fun a => TRANSITION_DURATION_IN_FRAMES
                                  <= sceneFrames FPS a) (scenes v))
        (Hp : nth_error (timeline (scenes v)) i = Some p) :
  startFrame p + durationInFrames p <= getDurationInFrames (Some v)
  /\ (S i = length (scenes v) ->
      startFrame p + durationInFrames p = getDurationInFrames (Some v)).
Proof.
  set (l := scenes v) in *.
  assert (Hi : (i < length l)%nat).
  { apply nth_error_Some_lt in Hp.
    unfold timeline, buildTimeline in Hp.
    now rewrite timeline_from_length in Hp. }
  destruct (nth_error l i) as [s|] eqn:Es;
    [|apply nth_error_None in Es; lia].
  assert (Hd : durationInFrames p = sceneFrames FPS s).
  { pose proof (timeline_from_durations FPS TRANSITION_DURATION_IN_FRAMES
                  l 0) as Hd.
    apply (f_equal (fun x => nth_error x i)) in Hd.
    rewrite !nth_error_map in Hd. unfold timeline, buildTimeline in Hp.
    rewrite Hp, Es in Hd. simpl in Hd. now injection Hd. }
  pose proof (timeline_from_start l 0 i p Hp) as Hs.
  rewrite (sumSteps_long _ (Forall_firstn _ i _ Hlong)) in Hs.
  rewrite length_firstn, Nat.min_l in Hs by lia.
  assert (Hne : l <> []) by (intro E; rewrite E in Hi; simpl in Hi; lia).
  rewrite (getDurationInFrames_sum v Hne). fold l.
  pose proof (nth_error_split_at l i s Es) as Hsplit.
  pose proof (sumFrames_lower _ (Forall_skipn _ (S i) _ Hlong)) as Hrest.
  rewrite length_skipn in Hrest.
  assert (Hsum : sumFrames FPS l
                 = sumFrames FPS (firstn i l) + sceneFrames FPS s
                   + sumFrames FPS (skipn (S i) l)).
  { rewrite Hsplit at 1. rewrite sumFrames_app.
    cbn [sumFrames fold_right]. fold (sumFrames FPS (skipn (S i) l)). lia. }
  unfold TRANSITION_DURATION_IN_FRAMES in *.
  split.
  - rewrite Hs, Hd, Hsum. lia.
  - intro Hlast. rewrite Hs, Hd, Hsum.
    assert (Hnil : skipn (S i) l = [])
      by (apply skipn_all2; lia).
    rewrite Hnil. cbn [sumFrames fold_right]. lia.
Qed.


(** X6.  When the audio export runs on scenes that all have at least the
    15 frames of the overlap, its frame cursor ends 15 frames before the
    length handed to the video player; the track it renders has for
    length, in seconds, the quotient of those frames by the frame rate as
    a double and, in samples, the ceiling of the product of that and 44100
    as a double. *)
Theorem export_shorter_than_video (v : VideoScript) (mix : Mix)
        (Hrun : downloadAudioTrack (Some v) = Some mix)
        (Hne : scenes v <> [])
        (Hlong : Forall (fun a => TRANSITION_DURATION_IN_FRAMES
                                  <= sceneFrames FPS a) (scenes v)) :
  let frames :=
    getDurationInFrames (Some v) - TRANSITION_DURATION_IN_FRAMES in
  snd (exportLoop [] 0 (scenes v)) = frames
  /\ totalDuration mix = Double.div (inject_Z frames) (inject_Z FPS)
  /\ samples mix
     = Qceiling (Double.mul (Double.div (inject_Z frames) (inject_Z FPS))
                            44100).
Proof.
  intro frames.
  assert (Hend : 0 + sumSteps (scenes v) = frames).
  { unfold frames.
    rewrite (sumSteps_long _ Hlong), (getDurationInFrames_sum v Hne). lia. }
  unfold downloadAudioTrack in Hrun.
  destruct (hasAudio (Some v)) eqn:Ha; [|discriminate].
  cbn [negb] in Hrun. rewrite exportLoop_clips in Hrun |- *.
  rewrite Hend in Hrun. injection Hrun as <-.
  cbn [snd totalDuration samples]. rewrite Hend. repeat split.
Qed.

(** X7.  [hasAudio] holds exactly when the audio track of the composition
    has a sequence for every scene. *)
Theorem hasAudio_iff_full_track (v : VideoScript) :
  hasAudio (Some v) = true
  <-> exists au, audioTrack (scenes v) = Some au
                 /\ length au = length (scenes v)
                 /\ Forall (fun o => o <> None) au.
Proof.
  assert (Hdef : forall j x, nth_error (scenes v) j = Some x ->
            (fun scene index =>
               match nth_error (timeline (scenes v)) index with
               | None => None
               | Some p =>
                   match audioUrl scene with
                   | Some url =>
                       if truthy (Some url)
                       then Some (Some {| key := (Sound, index);
                                          from := startFrame p;
                                          seqDurationInFrames :=
                                            durationInFrames p;
                                          child := Audio url |})
                       else Some None
                   | None => Some None
                   end
               end) x (0 + j)%nat <> None).
  { intros j x Hx. simpl.
    destruct (timeline_defined (scenes v) j x Hx) as (q & ->).
    destruct (audioUrl x) as [[|c url]|]; discriminate. }
  destruct (mapi_from_nth _ (scenes v) 0%nat Hdef) as (au & Hau & Hnth).
  pose proof (mapi_from_length _ _ _ _ Hau) as Hlen.
  unfold audioTrack. cbv zeta. rewrite Hau.
  split.
  - intro Ha. exists au. split; [reflexivity|]. split; [exact Hlen|].
    apply Forall_forall. intros o Ho.
    apply In_nth_error in Ho. destruct Ho as (i & Hi).
    destruct (nth_error (scenes v) i) as [x|] eqn:Ex.
    + destruct (Hnth i x Ex) as (y & Hy & Hf).
      rewrite Hi in Hy. injection Hy as <-.
      simpl in Hf.
      destruct (timeline_defined (scenes v) i x Ex) as (q & Hq).
      rewrite Hq in Hf.
      unfold hasAudio in Ha. rewrite forallb_forall in Ha.
      specialize (Ha x (nth_error_In _ _ Ex)).
      destruct (audioUrl x) as [[|c url]|]; try discriminate.
      injection Hf as <-. discriminate.
    + apply nth_error_None in Ex. apply nth_error_Some_lt in Hi. lia.
  - intros (au' & [= <-] & _ & Hall).
    unfold hasAudio. apply forallb_forall. intros x Hx.
    apply In_nth_error in Hx. destruct Hx as (i & Ex).
    destruct (Hnth i x Ex) as (y & Hy & Hf).
    simpl in Hf.
    destruct (timeline_defined (scenes v) i x Ex) as (q & Hq).
    rewrite Hq in Hf.
    rewrite Forall_forall in Hall.
    specialize (Hall y (nth_error_In _ _ Hy)).
    destruct (audioUrl x) as [[|c url]|]; try reflexivity;
      injection Hf as <-; congruence.
Qed.

End ExportTheorems.

(** X4 on the second of two scenes of 5 s and 3 s. *)
Lemma player_length_covers_windows_witness :
  let v := Vocab.scriptOf [Vocab.sceneOfDuration 5; Vocab.sceneOfDuration 3] in
  let p := {| Timeline.startFrame := 135; Timeline.durationInFrames := 90 |} in
  Timeline.startFrame p + Timeline.durationInFrames p
  <= Timeline.getDurationInFrames (Some v)
  /\ (2%nat = length (scenes v) ->
      Timeline.startFrame p + Timeline.durationInFrames p
      = Timeline.getDurationInFrames (Some v)).
Proof.
  intros v p.
  apply (player_length_covers_windows v 1 p).
  - repeat constructor; vm_compute; discriminate.
  - reflexivity.
Defined.


(** X6 on one scene of 1.6 s with audio: 48 frames for the player, the
    cursor of the export ends at frame 33, and 1.1 s at 44100 samples per
    second are 48511 samples, the product being 48510.00000000001 as a
    double. *)
Lemma export_shorter_than_video_witness :
  let v := Vocab.scriptOf [Terms.sceneWithAudio (16 # 10)] in
  exists mix,
    AudioExport.downloadAudioTrack (Some v) = Some mix
    /\ Timeline.getDurationInFrames (Some v) = 48
    /\ AudioExport.samples mix = 48511
    /\ snd (AudioExport.exportLoop [] 0 (scenes v)) = 48 - 15
    /\ AudioExport.totalDuration mix
       = Double.div (inject_Z (48 - 15)) (inject_Z FPS)
    /\ AudioExport.samples mix
       = Qceiling (Double.mul (Double.div (inject_Z (48 - 15)) (inject_Z FPS))
                              44100).
Proof.
  intro v. eexists. split; [vm_compute; reflexivity|].
  split; [vm_compute; reflexivity|].
  split; [vm_compute; reflexivity|].
  apply (export_shorter_than_video v).
  - vm_compute. reflexivity.
  - discriminate.
  - repeat constructor; vm_compute; discriminate.
Defined.

(** ** The file name of the exports *)

Section FileStem.

Import Terms AudioExport.

Lemma underscores_no_space (s : jsstring) :
  forall inRun, no_space (underscores inRun s).
Proof.
  induction s as [|c s IH]; intro inRun; simpl; [constructor|].
  destruct (is_space c) eqn:E.
  - destruct inRun; [apply IH|]. constructor; [reflexivity | apply IH].
  - constructor; [exact E | apply IH].
Qed.

Lemma underscores_fixed (s : jsstring) :
  no_space s -> forall inRun, underscores inRun s = s.
Proof.
  induction 1 as [|c s Hc _ IH]; intro inRun; simpl; [reflexivity|].
  now rewrite Hc, IH.
Qed.

(** X8.  The stem of the exported file names has no white space, keeps a
    topic without white space as it is, and has at most the length of the
    topic. *)
Theorem fileStem_no_space (topic : jsstring) :
  no_space (fileStem topic)
  /\ (no_space topic -> fileStem topic = topic)
  /\ (length (fileStem topic) <= length topic)%nat.
Proof.
  unfold fileStem. split; [apply underscores_no_space|].
  split; [intro H; now apply underscores_fixed|].
  generalize false.
  induction topic as [|c s IH]; intro b; simpl; [lia|].
  pose proof (IH true). pose proof (IH false).
  destruct (is_space c); [destruct b|]; simpl; lia.
Qed.

End FileStem.

(** X8 on a topic without white space. *)
Lemma fileStem_no_space_witness :
  AudioExport.fileStem [74; 67]%N = [74; 67]%N.
Proof.
  apply (proj1 (proj2 (fileStem_no_space [74; 67]%N))).
  repeat constructor.
Defined.

(** ** The text sent to the speech service *)

Section SpeakerPrefix.

Import Vocab Terms Subtitle Speech.

Lemma speakerMatch_names text sp :
  speakerMatch text = Some sp -> sp = speakerJenba \/ sp = speakerAiba.
Proof.
  unfold speakerMatch.
  destruct (match_speaker speakerJenba text); [intros [= <-]; now left|].
  destruct (match_speaker speakerAiba text); [intros [= <-]; now right|].
  discriminate.
Qed.

Lemma hasSpeaker_prefixed sp text :
  sp = speakerJenba \/ sp = speakerAiba ->
  hasSpeaker (prefixed sp text) = true.
Proof.
  intros [-> | ->]; reflexivity.
Qed.

(** A text with a speaker prefix starts with a code unit that is not a
    bullet. *)
Lemma hasSpeaker_head text :
  hasSpeaker text = true ->
  exists c rest, text = c :: rest /\ is_bullet c = false.
Proof.
  unfold hasSpeaker, speakerMatch, match_speaker.
  destruct text as [|c rest]; [discriminate|].
  intro H. exists c, rest. split; [reflexivity|].
  unfold speakerJenba, speakerAiba in H. cbn [strip_prefix] in H.
  destruct (N.eqb_spec 12376 c) as [<- | _]; [reflexivity|].
  destruct (N.eqb_spec 12354 c) as [<- | _]; [reflexivity|].
  discriminate.
Qed.

Lemma bulletRest_spec (s : jsstring) :
  forall r,
    bulletRest s = Some r ->
    hasSpeaker r = true
    /\ exists run, s = run ++ r /\ run <> []
                   /\ Forall (fun c => is_bullet c = true) run.
Proof.
  induction s as [|c s IH]; intros r H; simpl in H; [discriminate|].
  destruct (is_bullet c) eqn:Ec; [|discriminate].
  destruct (bulletRest s) as [r'|] eqn:Er.
  - injection H as <-. destruct (IH r' eq_refl) as (Hs & run & -> & _ & Hall).
    split; [exact Hs|]. exists (c :: run).
    split; [reflexivity|]. split; [discriminate|]. now constructor.
  - destruct (hasSpeaker s) eqn:Es; [|discriminate].
    injection H as <-. split; [exact Es|].
    exists [c]. split; [reflexivity|]. split; [discriminate|].
    now constructor.
Qed.

Lemma bulletRest_speaker (s : jsstring) :
  hasSpeaker s = true -> bulletRest s = None.
Proof.
  intro H. destruct (hasSpeaker_head s H) as (c & rest & -> & Hc).
  simpl. now rewrite Hc.
Qed.

Lemma stripBullets_facts (text : jsstring) :
  (exists run, text = run ++ stripBullets text
               /\ Forall (fun c => is_bullet c = true) run
               /\ (run <> [] -> hasSpeaker (stripBullets text) = true))
  /\ (hasSpeaker text = true -> stripBullets text = text)
  /\ stripBullets (stripBullets text) = stripBullets text.
Proof.
  destruct (bulletRest text) as [r|] eqn:E.
  - assert (Hst : stripBullets text = r)
      by (unfold stripBullets; now rewrite E).
    rewrite !Hst.
    destruct (bulletRest_spec text r E) as (Hs & run & Heq & Hne & Hall).
    split; [exists run; auto|].
    split.
    + intro H. rewrite (bulletRest_speaker text H) in E. discriminate.
    + unfold stripBullets. now rewrite (bulletRest_speaker r Hs).
  - assert (Hst : stripBullets text = text)
      by (unfold stripBullets; now rewrite E).
    rewrite !Hst.
    split; [exists []; repeat split; [constructor | congruence]|].
    split; reflexivity.
Qed.

(** X9.  Removing the bullets of a text removes a run of bullet code
    units from its start and nothing else; it removes something only
    where a speaker prefix follows the run; and doing it twice is doing it
    once. *)
Theorem stripBullets_run (text : jsstring) :
  (exists run, text = run ++ stripBullets text
               /\ Forall (fun c => is_bullet c = true) run
               /\ (run <> [] -> hasSpeaker (stripBullets text) = true))
  /\ (hasSpeaker text = true -> stripBullets text = text)
  /\ stripBullets (stripBullets text) = stripBullets text.
Proof.
  exact (stripBullets_facts text).
Qed.

(** X10.  The text handed to the speech service always starts with one of
    the two speaker names and a colon, in the batch run and in the
    regeneration of one scene alike; in the batch run a text that already
    starts that way is handed over as it is. *)
Theorem spoken_text_has_speaker (scene : Scene) :
  hasSpeaker (textToSpeak scene) = true
  /\ hasSpeaker (regenerateText scene) = true
  /\ (forall text, phoneticDialogue scene = Some text ->
                   hasSpeaker text = true -> textToSpeak scene = text).
Proof.
  split; [|split].
  - unfold textToSpeak. cbv zeta.
    destruct (hasSpeaker (stripBullets _)) eqn:E; [exact E|].
    cbn [negb].
    destruct (speakerMatch (dialogue scene)) as [sp|] eqn:Em.
    + apply hasSpeaker_prefixed. exact (speakerMatch_names _ _ Em).
    + apply hasSpeaker_prefixed. now left.
  - unfold regenerateText. cbv zeta.
    destruct (hasSpeaker (trim _)) eqn:E; [exact E|].
    cbn [negb].
    destruct (speakerMatch (dialogue scene)) as [sp|] eqn:Em.
    + apply hasSpeaker_prefixed. exact (speakerMatch_names _ _ Em).
    + apply hasSpeaker_prefixed. now left.
  - intros text Hp Hs. unfold textToSpeak. cbv zeta. rewrite Hp.
    destruct (hasSpeaker_head text Hs) as (c & rest & -> & _).
    cbn [firstTruthy].
    destruct (stripBullets_facts (c :: rest)) as (_ & Hfix & _).
    rewrite (Hfix Hs), Hs. reflexivity.
Qed.



End SpeakerPrefix.

(** ** Adding the audio to the script *)

Section AddAudio.

Import Timeline Vocab Terms Speech.

Variable generateSpeech : nat -> jsstring -> option AudioResult.

Lemma audioLoop_eq (l : list Scene) :
  forall i acc,
    audioLoop generateSpeech i acc l = acc ++ withAudioFrom generateSpeech i l.
Proof.
  induction l as [|scene rest IH]; intros i acc; simpl.
  - now rewrite app_nil_r.
  - rewrite IH, <- app_assoc. reflexivity.
Qed.

Lemma withAudioFrom_nth (l : list Scene) :
  forall i k,
    nth_error (withAudioFrom generateSpeech i l) k
    = option_map
        (fun scene =>
           withAudio scene (generateSpeech (i + k)%nat (textToSpeak scene)))
        (nth_error l k).
Proof.
  induction l as [|scene rest IH]; intros i k.
  - destruct k; reflexivity.
  - destruct k as [|k]; simpl.
    + now rewrite Nat.add_0_r.
    + rewrite IH. now replace (S i + k)%nat with (i + S k)%nat by lia.
Qed.

Lemma withAudioFrom_length (l : list Scene) :
  forall i, length (withAudioFrom generateSpeech i l) = length l.
Proof.
  induction l as [|scene rest IH]; intro i; simpl; [reflexivity|].
  now rewrite IH.
Qed.

Lemma withAudio_longer scene r :
  (durationInSeconds scene <= durationInSeconds (withAudio scene r))%Q.
Proof.
  destruct r as [r|]; simpl; [apply Q.le_max_l | apply Qle_refl].
Qed.

Lemma scenes_addAudio (v : VideoScript) :
  scenes (addAudioToScript generateSpeech v)
  = withAudioFrom generateSpeech 0 (scenes v).
Proof.
  unfold addAudioToScript. cbv zeta. cbn [scenes].
  now rewrite audioLoop_eq.
Qed.

Lemma addAudio_nth (v : VideoScript) (i : nat) (scene : Scene) :
  nth_error (scenes v) i = Some scene ->
  nth_error (scenes (addAudioToScript generateSpeech v)) i
  = Some (withAudio scene (generateSpeech i (textToSpeak scene))).
Proof.
  intro Hi. now rewrite scenes_addAudio, withAudioFrom_nth, Hi.
Qed.

(** The 0.6 s added to an audio: the sum as a double is the exact sum up
    to the fraction [2^-50] of it. *)
Lemma audioDuration_error (a : Q) :
  (0 <= a)%Q ->
  ((a + (6 # 10)) * (1 - 2 ^ (-50)) <= Double.add a (6 # 10)
   /\ Double.add a (6 # 10) <= (a + (6 # 10)) * (1 + 2 ^ (-50)))%Q.
Proof.
  intro Ha.
  destruct (add_error a (6 # 10) Ha ltac:(discriminate)) as [H1 H2].
  assert (Ht : (2 ^ (-1073) <= 2 ^ (-60))%Q) by (apply pow2_le; lia).
  set (t := (2 ^ (-1073))%Q) in *.
  set (P := Double.add a (6 # 10)) in *. clearbody t P.
  change (2 ^ (-51))%Q with (1 # 2251799813685248)%Q in *.
  change (2 ^ (-50))%Q with (1 # 1125899906842624)%Q.
  change (2 ^ (-60))%Q with (1 # 1152921504606846976)%Q in Ht.
  split; lra.
Qed.

(** X12.  Adding the audio keeps the number and the order of the scenes;
    it never shortens a scene; a scene whose speech failed is kept as it
    is; a scene whose speech succeeded gets the URL of the audio, the text
    that was spoken as its phonetic text and, for length, the larger of
    its length and the audio plus 0.6 s, so at least the latter, and keeps
    its dialogue and its presentation.  The 0.6 s are added as the source
    adds them, in doubles: the sum is the exact one up to the fraction
    [2^-50] of it. *)
Theorem addAudio_scene (v : VideoScript) (i : nat) (scene : Scene)
        (Hi : nth_error (scenes v) i = Some scene) :
  length (scenes (addAudioToScript generateSpeech v)) = length (scenes v)
  /\ exists scene',
      nth_error (scenes (addAudioToScript generateSpeech v)) i = Some scene'
      /\ (durationInSeconds scene <= durationInSeconds scene')%Q
      /\ match generateSpeech i (textToSpeak scene) with
         | None => scene' = scene
         | Some r =>
             audioUrl scene' = Some (resultUrl r)
             /\ phoneticDialogue scene' = Some (textToSpeak scene)
             /\ (Double.add (resultDuration r) (6 # 10)
                 <= durationInSeconds scene')%Q
             /\ (durationInSeconds scene'
                 == Qmax (durationInSeconds scene)
                         (Double.add (resultDuration r) (6 # 10)))%Q
             /\ ((0 <= resultDuration r)%Q ->
                 ((resultDuration r + (6 # 10)) * (1 - 2 ^ (-50))
                  <= Double.add (resultDuration r) (6 # 10)
                  /\ Double.add (resultDuration r) (6 # 10)
                     <= (resultDuration r + (6 # 10)) * (1 + 2 ^ (-50)))%Q)
             /\ dialogue scene' = dialogue scene
             /\ visualDescription scene' = visualDescription scene
             /\ keyword scene' = keyword scene
             /\ backgroundColor scene' = backgroundColor scene
             /\ dataOverlay scene' = dataOverlay scene
         end.
Proof.
  rewrite scenes_addAudio.
  split; [apply withAudioFrom_length|].
  exists (withAudio scene (generateSpeech i (textToSpeak scene))).
  split; [now rewrite withAudioFrom_nth, Hi|].
  split; [apply withAudio_longer|].
  destruct (generateSpeech i (textToSpeak scene)) as [r|]; [|reflexivity].
  cbn [withAudio audioUrl phoneticDialogue durationInSeconds dialogue
       visualDescription keyword backgroundColor dataOverlay].
  split; [reflexivity|]. split; [reflexivity|].
  split; [apply Q.le_max_r|]. split; [reflexivity|].
  split; [apply audioDuration_error|].
  repeat split.
Qed.




(** X14.  After the audio is added, the scene that follows a scene with
    fresh audio starts on the timeline at least the length of that audio
    plus 0.1 s after it, up to the rounding of the frame count: 0.6 s are
    added to the audio and at most 0.5 s are taken by the overlap.  The
    frames between the two starts are at least
    [(audio + 0.1) * FPS - 10^-6], for an audio of at most [10^6] s. *)
Theorem audio_ends_before_next_scene (v : VideoScript) (i : nat)
        (scene : Scene) (r : AudioResult) (p p' : Placement)
        (Hi : nth_error (scenes v) i = Some scene)
        (Hr : generateSpeech i (textToSpeak scene) = Some r)
        (Ha : (0 <= resultDuration r <= 1000000)%Q)
        (Hp : nth_error
                (timeline (scenes (addAudioToScript generateSpeech v))) i
              = Some p)
        (Hp' : nth_error
                 (timeline (scenes (addAudioToScript generateSpeech v))) (S i)
               = Some p') :
  ((resultDuration r + (1 # 10)) * inject_Z FPS - (1 # 1000000)
   <= inject_Z (startFrame p' - startFrame p))%Q.
Proof.
  pose proof (addAudio_nth v i scene Hi) as Hn. rewrite Hr in Hn.
  set (scene' := withAudio scene (Some r)) in *.
  set (audio := Double.add (resultDuration r) (6 # 10)).
  assert (Hdur : (audio <= durationInSeconds scene')%Q) by apply Q.le_max_r.
  destruct (audioDuration_error (resultDuration r) (proj1 Ha))
    as [Hlow Hup].
  fold audio in Hlow, Hup.
  change (2 ^ (-50))%Q with (1 # 1125899906842624)%Q in Hlow, Hup.
  set (l' := scenes (addAudioToScript generateSpeech v)) in *.
  unfold timeline, buildTimeline in Hp, Hp'.
  pose proof (timeline_from_step _ _ _ _ _ _ _ Hp Hp') as Hstep.
  assert (Hd : durationInFrames p = sceneFrames FPS scene').
  { pose proof (timeline_from_durations FPS TRANSITION_DURATION_IN_FRAMES
                  l' 0) as Hd.
    apply (f_equal (fun x => nth_error x i)) in Hd.
    rewrite !nth_error_map, Hp, Hn in Hd. simpl in Hd. now injection Hd. }
  rewrite Hstep, Hd.
  replace (startFrame p
           + Z.max 0 (sceneFrames FPS scene' - TRANSITION_DURATION_IN_FRAMES)
           - startFrame p)
    with (Z.max 0 (sceneFrames FPS scene' - TRANSITION_DURATION_IN_FRAMES))
    by lia.
  assert (Hm : (inject_Z (sceneFrames FPS scene'
                          - TRANSITION_DURATION_IN_FRAMES)
                <= inject_Z (Z.max 0 (sceneFrames FPS scene'
                                      - TRANSITION_DURATION_IN_FRAMES)))%Q)
    by (rewrite <- Zle_Qle; lia).
  unfold Z.sub in Hm at 1. rewrite inject_Z_plus, inject_Z_opp in Hm.
  pose proof (Qle_ceiling (Double.mul (durationInSeconds scene')
                                      (inject_Z FPS))) as Hc.
  fold (sceneFrames FPS scene') in Hc.
  pose proof (mul_mono_l _ _ (inject_Z FPS) Hdur ltac:(discriminate))
    as Hmono.
  destruct (mul_Z_error audio FPS) as [Herr _].
  { lra. }
  { unfold FPS. lia. }
  { change (inject_Z FPS) with 30%Q. change (2 ^ 30)%Q with 1073741824%Q.
    lra. }
  change (2 ^ (-20))%Q with (1 # 1048576)%Q in Herr.
  change (inject_Z TRANSITION_DURATION_IN_FRAMES) with 15%Q in *.
  set (frames := inject_Z (sceneFrames FPS scene')) in *.
  set (step := inject_Z (Z.max 0 (sceneFrames FPS scene'
                                  - TRANSITION_DURATION_IN_FRAMES))) in *.
  set (P := Double.mul (durationInSeconds scene') (inject_Z FPS)) in *.
  set (P0 := Double.mul audio (inject_Z FPS)) in *.
  change (inject_Z FPS) with 30%Q in *.
  clearbody frames step P P0 audio. lra.
Qed.

End AddAudio.

(** X14 without the allowance for the rounding fails: for an audio of
    4800 bytes, 0.1 s as a double, after a scene of no length, the next
    scene starts 6 frames later, where 0.2 s of that double and 0.1 s are
    a little more than 6 frames. *)
Lemma audio_bound_not_exact :
  let audio := Double.div 4800 48000 in
  let speech :=
    fun (_ : nat) (_ : jsstring) =>
      Some {| Speech.resultUrl := [98]%N;
              Speech.resultDuration := audio |} in
  let v := Vocab.scriptOf [Vocab.sceneOfDuration 0; Vocab.sceneOfDuration 0] in
  map Timeline.startFrame
      (Timeline.timeline (scenes (Speech.addAudioToScript speech v)))
  = [0; 6]
  /\ (inject_Z 6 < (audio + (1 # 10)) * inject_Z FPS)%Q.
Proof.
  split; vm_compute; reflexivity.
Qed.

(** X14 on two scenes of 3 s that get 4 s of audio each: the second one
    starts 123 frames, 4.1 s, after the first. *)
Lemma audio_ends_before_next_scene_witness :
  ((4 + (1 # 10)) * inject_Z FPS - (1 # 1000000) <= inject_Z (123 - 0))%Q.
Proof.
  apply (audio_ends_before_next_scene
           Terms.fourSeconds
           (Vocab.scriptOf [Vocab.sceneOfDuration 3; Vocab.sceneOfDuration 3])
           0 (Vocab.sceneOfDuration 3)
           {| Speech.resultUrl := [98; 108; 111; 98]%N;
              Speech.resultDuration := 4 |}
           {| Timeline.startFrame := 0; Timeline.durationInFrames := 138 |}
           {| Timeline.startFrame := 123; Timeline.durationInFrames := 138 |}
           eq_refl eq_refl).
  - split; vm_compute; discriminate.
  - reflexivity.
  - reflexivity.
Defined.

(** X12 on a scene of 3 s that gets 4 s of audio. *)
Lemma addAudio_scene_witness :
  let v := Vocab.scriptOf [Vocab.sceneOfDuration 3] in
  length (scenes (Speech.addAudioToScript Terms.fourSeconds v)) = 1%nat
  /\ exists scene',
      nth_error (scenes (Speech.addAudioToScript Terms.fourSeconds v)) 0
      = Some scene'
      /\ (3 <= durationInSeconds scene')%Q
      /\ audioUrl scene' = Some [98; 108; 111; 98]%N
      /\ phoneticDialogue scene'
         = Some (Speech.textToSpeak (Vocab.sceneOfDuration 3))
      /\ (Double.add 4 (6 # 10) <= durationInSeconds scene')%Q
      /\ (durationInSeconds scene' == Qmax 3 (Double.add 4 (6 # 10)))%Q
      /\ ((0 <= 4)%Q ->
          ((4 + (6 # 10)) * (1 - 2 ^ (-50)) <= Double.add 4 (6 # 10)
           /\ Double.add 4 (6 # 10) <= (4 + (6 # 10)) * (1 + 2 ^ (-50)))%Q)
      /\ dialogue scene' = []
      /\ visualDescription scene' = []
      /\ keyword scene' = []
      /\ backgroundColor scene' = []
      /\ dataOverlay scene' = Vocab.emptyOverlay.
Proof.
  intro v.
  exact (addAudio_scene Terms.fourSeconds v 0 (Vocab.sceneOfDuration 3)
                        eq_refl).
Defined.

(** ** The WAV files *)

Section WavFrames.

Import Terms Wav.

Lemma store_length view i b : length (store view i b) = length view.
Proof.
  revert i. induction view as [|x view IH]; intros [|i]; simpl; auto.
Qed.

Lemma storeBytes_length bytes :
  forall view i, length (storeBytes view i bytes) = length view.
Proof.
  induction bytes as [|b bytes IH]; intros view i; simpl; [reflexivity|].
  now rewrite IH, store_length.
Qed.

Lemma store_app_head h t i b :
  (i < length h)%nat -> store (h ++ t) i b = store h i b ++ t.
Proof.
  revert i. induction h as [|x h IH]; intros [|i] Hi; simpl in *; try lia.
  - reflexivity.
  - f_equal. apply IH. lia.
Qed.

Lemma storeBytes_app_head bytes :
  forall h t i,
    (i + length bytes <= length h)%nat ->
    storeBytes (h ++ t) i bytes = storeBytes h i bytes ++ t.
Proof.
  induction bytes as [|b bytes IH]; intros h t i Hi; simpl in *;
    [reflexivity|].
  rewrite store_app_head by lia. apply IH. rewrite store_length. lia.
Qed.

(** Writing over the bytes that directly follow [h]. *)
Lemma storeBytes_after bytes :
  forall h old t,
    length old = length bytes ->
    storeBytes (h ++ old ++ t) (length h) bytes = h ++ bytes ++ t.
Proof.
  induction bytes as [|b bytes IH]; intros h old t Hlen.
  - destruct old; [reflexivity | discriminate].
  - destruct old as [|o old]; [discriminate|].
    cbn [storeBytes app].
    assert (Hst : store (h ++ o :: old ++ t) (length h) b
                  = (h ++ [b]) ++ old ++ t).
    { clear. induction h as [|x h IHh]; simpl; [reflexivity|].
      now rewrite IHh. }
    rewrite Hst.
    replace (S (length h)) with (length (h ++ [b]))
      by (rewrite length_app; simpl; lia).
    rewrite IH by (simpl in Hlen; lia).
    now rewrite <- app_assoc.
Qed.

Lemma leBytes_length k : forall v, length (leBytes k v) = k.
Proof.
  induction k as [|k IH]; intro v; simpl; [reflexivity|]. now rewrite IH.
Qed.

Lemma inRange_app h t offset width :
  inRange h offset width = true -> inRange (h ++ t) offset width = true.
Proof.
  unfold inRange, byteLength. rewrite !andb_true_iff, !Z.leb_le.
  rewrite length_app. lia.
Qed.

Lemma framed_store width offset bytes :
  Z.of_nat (length bytes) = width ->
  framed (fun view =>
            if inRange view offset width
            then Some (storeBytes view (Z.to_nat offset) bytes)
            else None).
Proof.
  intros Hw h h' t H.
  destruct (inRange h offset width) eqn:E; [|discriminate].
  rewrite (inRange_app _ t _ _ E). injection H as <-. f_equal.
  apply storeBytes_app_head.
  unfold inRange, byteLength in E.
  rewrite andb_true_iff, !Z.leb_le in E. lia.
Qed.

Lemma framed_setUint8 offset v : framed (fun view => setUint8 view offset v).
Proof.
  apply (framed_store 1). reflexivity.
Qed.

Lemma framed_setUint16 offset v : framed (fun view => setUint16 view offset v).
Proof.
  apply (framed_store 2). reflexivity.
Qed.

Lemma framed_setUint32 offset v : framed (fun view => setUint32 view offset v).
Proof.
  apply (framed_store 4). reflexivity.
Qed.

Lemma framed_writeString_from string :
  forall offset i, framed (fun view => writeString_from view offset i string).
Proof.
  induction string as [|c rest IH]; intros offset i h h' t H; simpl in *.
  - now injection H as <-.
  - destruct (setUint8 h (offset + i) (Z.of_N c)) as [h1|] eqn:E;
      [|discriminate].
    rewrite (framed_setUint8 _ _ _ _ t E). exact (IH _ _ _ _ t H).
Qed.

Lemma framed_writeString offset string :
  framed (fun view => writeString view offset string).
Proof.
  apply framed_writeString_from.
Qed.

(** The frame property along a sequence of writes. *)
Lemma frame_andThen (a b : option buffer) t f :
  (forall h', a = Some h' -> b = Some (h' ++ t)) ->
  framed f ->
  forall h', a >>= f = Some h' -> b >>= f = Some (h' ++ t).
Proof.
  intros Hab Hf h' H. destruct a as [h1|]; [|discriminate].
  rewrite (Hab h1 eq_refl). simpl in *. now apply Hf.
Qed.

Lemma setArray_after h old bytes :
  length old = length bytes ->
  setArray (h ++ old) (Z.of_nat (length h)) bytes = Some (h ++ bytes).
Proof.
  intro Hlen. unfold setArray, inRange, byteLength.
  rewrite length_app, Hlen.
  replace ((0 <=? Z.of_nat (length h))
           && (Z.of_nat (length h) + Z.of_nat (length bytes)
               <=? Z.of_nat (length h + length bytes)))%bool with true
    by (symmetry; rewrite andb_true_iff, !Z.leb_le; lia).
  rewrite Nat2Z.id.
  pose proof (storeBytes_after bytes h old [] Hlen) as H.
  now rewrite !app_nil_r in H; rewrite H.
Qed.

Lemma ArrayBuffer_split (k : nat) :
  ArrayBuffer (44 + Z.of_nat k) = repeat 0 44 ++ repeat 0 k.
Proof.
  unfold ArrayBuffer.
  replace (Z.to_nat (44 + Z.of_nat k)) with (44 + k)%nat by lia.
  apply repeat_app.
Qed.

End WavFrames.

Section WavLayout.

Import Terms Wav.

Lemma framed_andThen f g :
  framed f -> framed g -> framed (fun view => f view >>= g).
Proof.
  intros Hf Hg h h' t H.
  destruct (f h) as [h1|] eqn:E; [|discriminate].
  rewrite (Hf _ _ t E). simpl in *. now apply Hg.
Qed.

Lemma framed_headerWrites a b c d e f g i :
  framed (headerWrites a b c d e f g i).
Proof.
  unfold headerWrites.
  repeat (apply framed_andThen;
          [| first [ apply framed_setUint32 | apply framed_setUint16
                   | apply framed_writeString ] ]).
  apply framed_writeString.
Qed.

(** The header of a mono 16 bit file, written over 44 zero bytes that any
    bytes may follow. *)
Lemma headerWrites_mono rate size t :
  headerWrites (36 + size) 1 1 rate (rate * 2) 2 16 size (repeat 0 44 ++ t)
  = Some (wavHeader rate size ++ t).
Proof.
  apply framed_headerWrites. reflexivity.
Qed.

Lemma wavHeader_length rate size : length (wavHeader rate size) = 44%nat.
Proof.
  reflexivity.
Qed.

Lemma pcmToWav_bytes (binaryString : jsstring) (sampleRate : Z) :
  pcmToWav binaryString sampleRate
  = Some (wavHeader sampleRate (len binaryString)
          ++ map (fun c => Z.of_N c mod 256) binaryString).
Proof.
  unfold pcmToWav. cbv zeta.
  set (bytes := map (fun c => Z.of_N c mod 256) binaryString).
  assert (Hlen : length bytes = length binaryString)
    by (unfold bytes; apply length_map).
  rewrite Hlen, ArrayBuffer_split.
  change (writeString (repeat 0 44 ++ repeat 0 (length binaryString)) 0 RIFF
          >>= _ >>= _ >>= _ >>= _ >>= _ >>= _ >>= _ >>= _ >>= _ >>= _ >>= _
          >>= _)
    with (headerWrites (36 + Z.of_nat (length binaryString)) 1 1 sampleRate
            (sampleRate * 2) 2 16 (Z.of_nat (length binaryString))
            (repeat 0 44 ++ repeat 0 (length binaryString))).
  rewrite headerWrites_mono. cbn [andThen].
  change 44 with (Z.of_nat (length (wavHeader sampleRate
                                      (Z.of_nat (length binaryString))))).
  apply setArray_after. now rewrite repeat_length, Hlen.
Qed.

(** X15.  [pcmToWav] never runs out of the bounds of its buffer; the file
    it builds is the 44 bytes of the header of a mono 16 bit PCM file of
    the given rate, whose two size fields count the data, followed by the
    data, byte for byte. *)
Theorem pcmToWav_layout (binaryString : jsstring) (sampleRate : Z) :
  let bytes := map (fun c => Z.of_N c mod 256) binaryString in
  pcmToWav binaryString sampleRate
  = Some (wavHeader sampleRate (len binaryString) ++ bytes)
  /\ length (wavHeader sampleRate (len binaryString) ++ bytes)
     = (44 + length binaryString)%nat.
Proof.
  intro bytes. split; [apply pcmToWav_bytes|].
  rewrite length_app, wavHeader_length. unfold bytes.
  now rewrite length_map.
Qed.

End WavLayout.

Section WavFields.

Import Terms Wav.

(** Reading little endian bytes back gives the value modulo 256^k. *)
Lemma leValue_leBytes k : forall v, leValue (leBytes k v) = v mod 256 ^ Z.of_nat k.
Proof.
  induction k as [|k IH]; intro v.
  - simpl. now rewrite Z.mod_1_r.
  - cbn [leBytes leValue]. rewrite IH, Nat2Z.inj_succ, Z.pow_succ_r by lia.
    rewrite Z.rem_mul_r by lia. reflexivity.
Qed.

Lemma leValue_leBytes_small k v :
  0 <= v < 256 ^ Z.of_nat k -> leValue (leBytes k v) = v.
Proof.
  intro H. rewrite leValue_leBytes. now apply Z.mod_small.
Qed.

(** X16.  The fields of the file [pcmToWav] builds read back as a WAV
    reader expects them: the tag RIFF, the size of the file less 8, the
    tags WAVE and fmt, format 1 (PCM), one channel, the rate, the byte rate
    (twice the rate), 2 bytes per frame, 16 bits, the tag data, the size of
    the data, and the data from byte 44 on; this as long as the sizes and
    rates fit 32 bits. *)
Theorem pcmToWav_fields (binaryString : jsstring) (sampleRate : Z)
        (Hsize : 36 + len binaryString < 2 ^ 32)
        (Hrate : 0 <= sampleRate /\ sampleRate * 2 < 2 ^ 32) :
  exists file,
    pcmToWav binaryString sampleRate = Some file
    /\ firstn 4 file = map Z.of_N RIFF
    /\ leValue (firstn 4 (skipn 4 file)) = byteLength file - 8
    /\ firstn 8 (skipn 8 file) = map Z.of_N (WAVE ++ fmt_)
    /\ leValue (firstn 4 (skipn 16 file)) = 16
    /\ leValue (firstn 2 (skipn 20 file)) = 1
    /\ leValue (firstn 2 (skipn 22 file)) = 1
    /\ leValue (firstn 4 (skipn 24 file)) = sampleRate
    /\ leValue (firstn 4 (skipn 28 file)) = sampleRate * 2
    /\ leValue (firstn 2 (skipn 32 file)) = 2
    /\ leValue (firstn 2 (skipn 34 file)) = 16
    /\ firstn 4 (skipn 36 file) = map Z.of_N data
    /\ leValue (firstn 4 (skipn 40 file)) = len binaryString
    /\ skipn 44 file = map (fun c => Z.of_N c mod 256) binaryString.
Proof.
  pose proof (pcmToWav_bytes binaryString sampleRate) as Hfile.
  assert (Hlen : length (wavHeader sampleRate (len binaryString)
                         ++ map (fun c => Z.of_N c mod 256) binaryString)
                 = (44 + length binaryString)%nat)
    by (rewrite length_app, wavHeader_length, length_map; reflexivity).
  eexists. split; [exact Hfile|].
  assert (Hn : 0 <= len binaryString) by (unfold len; lia).
  change (2 ^ 32) with (256 ^ Z.of_nat 4) in *.
  split; [reflexivity|].
  split.
  { change (firstn 4 (skipn 4 (wavHeader sampleRate (len binaryString) ++ _)))
      with (leBytes 4 (36 + len binaryString)).
    rewrite leValue_leBytes_small by lia.
    unfold byteLength. rewrite Hlen. unfold len. lia. }
  split; [reflexivity|].
  split; [reflexivity|]. split; [reflexivity|]. split; [reflexivity|].
  split.
  { change (firstn 4 (skipn 24 (wavHeader sampleRate (len binaryString) ++ _)))
      with (leBytes 4 sampleRate).
    apply leValue_leBytes_small. lia. }
  split.
  { change (firstn 4 (skipn 28 (wavHeader sampleRate (len binaryString) ++ _)))
      with (leBytes 4 (sampleRate * 2)).
    apply leValue_leBytes_small. lia. }
  split; [reflexivity|]. split; [reflexivity|]. split; [reflexivity|].
  split; [|reflexivity].
  change (firstn 4 (skipn 40 (wavHeader sampleRate (len binaryString) ++ _)))
    with (leBytes 4 (len binaryString)).
  apply leValue_leBytes_small. lia.
Qed.

(** X17.  The length [generateSpeech] reports for the audio is the
    quotient, as a double, of the number of data bytes [pcmToWav] writes
    after the header by the byte rate it writes to the header, at the rate
    of 24000 that [generateSpeech] passes: the divisor [24000 * 2 * 1] of
    the one is the byte rate of the other. *)
Theorem speechDuration_matches_header (binaryString : jsstring) :
  exists file,
    pcmToWav binaryString 24000 = Some file
    /\ leValue (firstn 4 (skipn 28 file)) = 48000
    /\ speechDuration binaryString
       = Double.div (inject_Z (Z.of_nat (length (skipn 44 file))))
                    (inject_Z (leValue (firstn 4 (skipn 28 file)))).
Proof.
  pose proof (pcmToWav_bytes binaryString 24000) as Hfile.
  eexists. split; [exact Hfile|].
  split; [reflexivity|].
  change (leValue (firstn 4 (skipn 28 (wavHeader 24000 (len binaryString)
                                        ++ _)))) with 48000.
  change (skipn 44 (wavHeader 24000 (len binaryString)
                    ++ map (fun c => Z.of_N c mod 256) binaryString))
    with (map (fun c => Z.of_N c mod 256) binaryString).
  rewrite length_map. reflexivity.
Qed.

End WavFields.

Section WavSamples.

Import Terms Wav.

Lemma setInt16_after h rest (value : Q) :
  setInt16 (h ++ 0 :: 0 :: rest) (Z.of_nat (length h)) value
  = Some (h ++ leBytes 2 (truncate value) ++ rest).
Proof.
  unfold setInt16, setUint16, inRange, byteLength.
  rewrite length_app. cbn [length].
  replace ((0 <=? Z.of_nat (length h))
           && (Z.of_nat (length h) + 2
               <=? Z.of_nat (length h + S (S (length rest)))))%bool with true
    by (symmetry; rewrite andb_true_iff, !Z.leb_le; lia).
  rewrite Nat2Z.id.
  exact (f_equal Some
           (storeBytes_after (leBytes 2 (truncate value)) h [0; 0] rest
                             eq_refl)).
Qed.

(** The samples, written over the zero bytes that follow [h]. *)
Lemma writeSamples_after (samples : list Q) :
  forall h,
    writeSamples (h ++ repeat 0 (2 * length samples))
                 (Z.of_nat (length h)) samples
    = Some (h ++ flat_map sampleBytes samples).
Proof.
  induction samples as [|x rest IH]; intro h.
  - simpl. reflexivity.
  - cbn [length]. replace (2 * S (length rest))%nat
      with (S (S (2 * length rest))) by lia.
    cbn [repeat writeSamples]. rewrite setInt16_after.
    rewrite app_assoc.
    replace (Z.of_nat (length h) + 2)
      with (Z.of_nat (length (h ++ leBytes 2 (truncate (int16Of x)))))
      by (rewrite length_app, leBytes_length; lia).
    rewrite IH. cbn [flat_map]. unfold sampleBytes at 2.
    now rewrite <- app_assoc.
Qed.

(** X18.  [exportWav] never runs out of the bounds of its buffer; the
    file it builds is the header of a mono 16 bit PCM file of the rate of
    the audio buffer, whose size fields count two bytes per sample,
    followed by the two bytes of every sample, in order. *)
Theorem exportWav_layout (audioBuffer : AudioBuffer) :
  let n := Z.of_nat (length (channelData audioBuffer)) in
  exportWav audioBuffer
  = Some (wavHeader (sampleRate audioBuffer) (2 * n)
          ++ flat_map sampleBytes (channelData audioBuffer))
  /\ length (wavHeader (sampleRate audioBuffer) (2 * n)
             ++ flat_map sampleBytes (channelData audioBuffer))
     = (44 + 2 * length (channelData audioBuffer))%nat.
Proof.
  intro n. split.
  - unfold exportWav. cbv zeta.
    change (16 / 8) with 2.
    replace (Z.of_nat (length (channelData audioBuffer)) * 1 * 2)
      with (2 * n) by (unfold n; lia).
    replace (sampleRate audioBuffer * 1 * 2)
      with (sampleRate audioBuffer * 2) by lia.
    change (1 * 2) with 2.
    replace (2 * n) with (Z.of_nat (2 * length (channelData audioBuffer)))
      by (unfold n; lia).
    rewrite ArrayBuffer_split.
    set (k := Z.of_nat (2 * length (channelData audioBuffer))).
    change (writeString (repeat 0 44 ++ _) 0 RIFF
            >>= _ >>= _ >>= _ >>= _ >>= _ >>= _ >>= _ >>= _ >>= _ >>= _ >>= _
            >>= _)
      with (headerWrites (36 + k) 1 1 (sampleRate audioBuffer)
              (sampleRate audioBuffer * 2) 2 16 k
              (repeat 0 44
               ++ repeat 0 (2 * length (channelData audioBuffer)))).
    rewrite headerWrites_mono. cbn [andThen].
    change 44 with (Z.of_nat (length (wavHeader (sampleRate audioBuffer) k))).
    apply writeSamples_after.
  - rewrite length_app, wavHeader_length. f_equal.
    induction (channelData audioBuffer) as [|x rest IH]; [reflexivity|].
    cbn [flat_map length]. rewrite length_app, IH.
    unfold sampleBytes. rewrite leBytes_length. lia.
Qed.

Lemma sample_clamped (x : Q) :
  (-1 <= Qmax (-1) (Qmin 1 x) /\ Qmax (-1) (Qmin 1 x) <= 1)%Q.
Proof.
  split; [apply Q.le_max_l|].
  apply Q.max_lub; [discriminate | apply Q.le_min_l].
Qed.

(** The two cases of the scaling: a sample that is not negative is scaled
    by 32767 and rounded down, a negative one by 32768 and rounded up. *)
Lemma truncate_int16Of (x : Q) :
  let sample := Qmax (-1) (Qmin 1 x) in
  ((0 <= sample)%Q
   /\ truncate (int16Of x) = Qfloor (sample * 32767))
  \/ ((sample < 0)%Q
      /\ truncate (int16Of x) = Qceiling (sample * 32768)).
Proof.
  intro sample. unfold int16Of. fold sample.
  destruct (Qle_bool 0 sample) eqn:E; cbn [negb].
  - left. apply Qle_bool_iff in E. split; [exact E|].
    unfold truncate.
    replace (Qle_bool 0 (sample * 32767)) with true; [reflexivity|].
    symmetry. apply Qle_bool_iff. apply Qmult_le_0_compat; [exact E|].
    discriminate.
  - right.
    assert (Hneg : (sample < 0)%Q).
    { apply Qnot_le_lt. intro H. apply Qle_bool_iff in H. congruence. }
    split; [exact Hneg|].
    unfold truncate.
    replace (Qle_bool 0 (sample * 32768)) with false; [reflexivity|].
    symmetry. destruct (Qle_bool 0 (sample * 32768)) eqn:E2; [|reflexivity].
    apply Qle_bool_iff in E2. exfalso.
    assert (H : (0 < - sample * 32768)%Q)
      by (apply Qmult_lt_0_compat; [lra | reflexivity]).
    lra.
Qed.

Lemma Qfloor_between (q : Q) (a b : Z) :
  (inject_Z a <= q)%Q -> (q <= inject_Z b)%Q -> a <= Qfloor q <= b.
Proof.
  intros Ha Hb. split.
  - rewrite <- (Qfloor_Z a). now apply Qfloor_resp_le.
  - rewrite <- (Qfloor_Z b). now apply Qfloor_resp_le.
Qed.

Lemma Qceiling_between (q : Q) (a b : Z) :
  (inject_Z a <= q)%Q -> (q <= inject_Z b)%Q -> a <= Qceiling q <= b.
Proof.
  intros Ha Hb. split.
  - rewrite <- (Qceiling_Z a). now apply Qceiling_resp_le.
  - rewrite <- (Qceiling_Z b). now apply Qceiling_resp_le.
Qed.

Lemma int16Value_leBytes (v : Z) :
  -32768 <= v <= 32767 -> int16Value (leBytes 2 v) = v.
Proof.
  intro Hv. unfold int16Value. rewrite leValue_leBytes.
  change (256 ^ Z.of_nat 2) with 65536.
  destruct (Z_lt_le_dec v 0) as [Hneg | Hpos].
  - replace (v mod 65536) with (v + 65536).
    + destruct (v + 65536 <? 32768) eqn:E; [apply Z.ltb_lt in E; lia | lia].
    + apply Z.mod_unique with (q := -1); lia.
  - rewrite Z.mod_small by lia.
    destruct (v <? 32768) eqn:E; [reflexivity | apply Z.ltb_ge in E; lia].
Qed.

(** X19.  A sample is stored as a signed 16 bit number that reads back as
    it was computed: clipping to [-1, 1] keeps it between -32768 and
    32767, so it never wraps around; samples of 1 and above give 32767,
    samples of -1 and below give -32768, and a larger sample never gives a
    smaller number. *)
Theorem sample_never_wraps (x y : Q) :
  let v := truncate (int16Of x) in
  -32768 <= v <= 32767
  /\ int16Value (sampleBytes x) = v
  /\ ((1 <= x)%Q -> v = 32767)
  /\ ((x <= -1)%Q -> v = -32768)
  /\ ((x <= y)%Q -> v <= truncate (int16Of y)).
Proof.
  intro v.
  assert (Hrange : forall z, -32768 <= truncate (int16Of z) <= 32767).
  { intro z. pose proof (sample_clamped z) as [Hlo Hhi].
    destruct (truncate_int16Of z) as [[Hs ->] | [Hs ->]].
    - assert (0 <= Qfloor (Qmax (-1) (Qmin 1 z) * 32767) <= 32767); [|lia].
      apply Qfloor_between; unfold inject_Z; lra.
    - assert (-32768 <= Qceiling (Qmax (-1) (Qmin 1 z) * 32768) <= 0); [|lia].
      apply Qceiling_between; unfold inject_Z; lra. }
  split; [apply Hrange|].
  split; [apply int16Value_leBytes, Hrange|].
  split; [|split].
  - intro Hx. subst v.
    assert (Hs : (1 <= Qmax (-1) (Qmin 1 x))%Q).
    { eapply Qle_trans; [|apply Q.le_max_r].
      apply Q.min_glb; [apply Qle_refl | exact Hx]. }
    pose proof (sample_clamped x) as [_ Hhi].
    destruct (truncate_int16Of x) as [[_ ->] | [Hneg _]]; [|lra].
    assert (32767 <= Qfloor (Qmax (-1) (Qmin 1 x) * 32767) <= 32767); [|lia].
    apply Qfloor_between; unfold inject_Z; lra.
  - intro Hx. subst v.
    assert (Hs : (Qmax (-1) (Qmin 1 x) <= -1)%Q).
    { apply Q.max_lub; [apply Qle_refl|].
      eapply Qle_trans; [apply Q.le_min_r | exact Hx]. }
    pose proof (sample_clamped x) as [Hlo _].
    destruct (truncate_int16Of x) as [[Hpos _] | [_ ->]]; [lra|].
    assert (-32768 <= Qceiling (Qmax (-1) (Qmin 1 x) * 32768) <= -32768);
      [|lia].
    apply Qceiling_between; unfold inject_Z; lra.
  - intro Hxy. subst v.
    assert (Hs : (Qmax (-1) (Qmin 1 x) <= Qmax (-1) (Qmin 1 y))%Q).
    { apply Q.max_le_compat; [apply Qle_refl|].
      apply Q.min_le_compat; [apply Qle_refl | exact Hxy]. }
    pose proof (sample_clamped x) as [Hxlo Hxhi].
    pose proof (sample_clamped y) as [Hylo Hyhi].
    destruct (truncate_int16Of x) as [[Hx ->] | [Hx ->]];
      destruct (truncate_int16Of y) as [[Hy ->] | [Hy ->]].
    + apply Qfloor_resp_le. lra.
    + lra.
    + assert (Qceiling (Qmax (-1) (Qmin 1 x) * 32768) <= 0)
        by (apply (Qceiling_between _ (-32768) 0); unfold inject_Z; lra).
      assert (0 <= Qfloor (Qmax (-1) (Qmin 1 y) * 32767))
        by (apply (Qfloor_between _ 0 32767); unfold inject_Z; lra).
      lia.
    + apply Qceiling_resp_le. lra.
Qed.

End WavSamples.

(** X16 on three bytes at 24000 Hz. *)
Lemma pcmToWav_fields_witness :
  exists file,
    Wav.pcmToWav [1; 2; 300]%N 24000 = Some file
    /\ firstn 4 file = map Z.of_N Wav.RIFF
    /\ Terms.leValue (firstn 4 (skipn 4 file)) = Wav.byteLength file - 8
    /\ firstn 8 (skipn 8 file) = map Z.of_N (Wav.WAVE ++ Wav.fmt_)
    /\ Terms.leValue (firstn 4 (skipn 16 file)) = 16
    /\ Terms.leValue (firstn 2 (skipn 20 file)) = 1
    /\ Terms.leValue (firstn 2 (skipn 22 file)) = 1
    /\ Terms.leValue (firstn 4 (skipn 24 file)) = 24000
    /\ Terms.leValue (firstn 4 (skipn 28 file)) = 24000 * 2
    /\ Terms.leValue (firstn 2 (skipn 32 file)) = 2
    /\ Terms.leValue (firstn 2 (skipn 34 file)) = 16
    /\ firstn 4 (skipn 36 file) = map Z.of_N Wav.data
    /\ Terms.leValue (firstn 4 (skipn 40 file)) = len [1; 2; 300]%N
    /\ skipn 44 file = map (fun c => Z.of_N c mod 256) [1; 2; 300]%N.
Proof.
  apply (pcmToWav_fields [1; 2; 300]%N 24000).
  - reflexivity.
  - split; [discriminate | reflexivity].
Defined.

(** ** Dialogue without punctuation *)

Section OneChunk.

Import Vocab Terms Subtitle.

Variable P : char -> bool.

(** Where no code unit before the last is of the class, the lookbehind
    never succeeds and the loop returns the input as one piece. *)
Lemma split_loop_whole :
  forall fuel prev (cur rest : jsstring),
    (length rest < fuel)%nat ->
    after P prev = false ->
    Forall (fun c => P c = false) (removelast rest) ->
    split_loop fuel P prev cur rest = Some [cur ++ rest].
Proof.
  induction fuel as [|fuel IH]; intros prev cur rest Hfuel Hprev Hall; [lia|].
  destruct rest as [|c rest'].
  - simpl. now rewrite app_nil_r.
  - cbn [split_loop]. unfold lookbehind_ws.
    assert (Hno : match prev with
                  | Some c0 =>
                      if P c0
                      then Some (length (takeWhile is_space (c :: rest')))
                      else None
                  | None => None
                  end = None).
    { destruct prev as [pc|]; [|reflexivity]. simpl in Hprev.
      now rewrite Hprev. }
    rewrite Hno.
    destruct rest' as [|c' rest''].
    + destruct fuel; [simpl in Hfuel; lia|]. simpl. reflexivity.
    + rewrite IH.
      * now rewrite <- app_assoc.
      * simpl in Hfuel |- *. lia.
      * change (removelast (c :: c' :: rest''))
          with (c :: removelast (c' :: rest'')) in Hall.
        now inversion Hall.
      * change (removelast (c :: c' :: rest''))
          with (c :: removelast (c' :: rest'')) in Hall.
        now inversion Hall.
Qed.

Lemma split_whole (s : jsstring) :
  Forall (fun c => P c = false) (removelast s) -> split P s = [s].
Proof.
  intro Hall. destruct s as [|c s']; [reflexivity|].
  unfold split. rewrite split_loop_whole; auto.
  unfold split_fuel. lia.
Qed.

End OneChunk.

Section OneChunkTheorem.

Import Vocab Terms Subtitle.

(** X20.  A dialogue whose text, after the speaker prefix and the white
    space at its ends are removed, is not empty and has no sentence end
    and no comma before its last code unit, gives that text as its one
    chunk, however long it is. *)
Theorem unpunctuated_dialogue_one_chunk (dialogue : jsstring)
        (Hne : trim (removeSpeakerPrefix dialogue) <> [])
        (Hplain : Forall (fun c => is_boundary c = false)
                         (removelast (trim (removeSpeakerPrefix dialogue)))) :
  splitDialogueIntoChunks dialogue = [trim (removeSpeakerPrefix dialogue)].
Proof.
  unfold splitDialogueIntoChunks. cbv zeta.
  set (clean := trim (removeSpeakerPrefix dialogue)) in *.
  assert (Hs : Forall (fun c => is_sentence_end c = false) (removelast clean)).
  { eapply Forall_impl; [|exact Hplain]. intros c Hc.
    unfold is_boundary in Hc. now apply orb_false_iff in Hc. }
  assert (Hc : Forall (fun c => is_comma c = false) (removelast clean)).
  { eapply Forall_impl; [|exact Hplain]. intros c Hc.
    unfold is_boundary in Hc. now apply orb_false_iff in Hc. }
  rewrite (split_whole _ _ Hs).
  destruct clean as [|x xs] eqn:Ec; [congruence|].
  cbn [filter]. rewrite len_cons_pos. cbn [fold_left].
  unfold addSentence.
  destruct (len (x :: xs) <? 25); [reflexivity|].
  rewrite (split_whole _ _ Hc). cbn [fold_left].
  unfold addPart. cbn [app nonempty].
  destruct (30 <? len (x :: xs)); reflexivity.
Qed.

End OneChunkTheorem.

(** X20 on a dialogue of a speaker prefix and forty code units "a". *)
Lemma unpunctuated_dialogue_one_chunk_witness :
  Subtitle.splitDialogueIntoChunks
    (Subtitle.speakerAiba ++ [58; 32]%N ++ repeat 97%N 40)
  = [repeat 97%N 40].
Proof.
  apply (unpunctuated_dialogue_one_chunk
           (Subtitle.speakerAiba ++ [58; 32]%N ++ repeat 97%N 40)).
  - vm_compute. discriminate.
  - vm_compute. repeat constructor.
Defined.

(** ** The regeneration of one audio *)

Section RegenerateFacts.

Import Regenerate Speech.





End RegenerateFacts.

